(** * Treeomics: orchestration of tree inference ([tree_inference.py])

    A shallow embedding of the two entry points of
    [src/treeomics/tree_inference.py]:

    - [infer_max_compatible_tree] (simple path), and
    - [create_max_lh_tree] (maximum-likelihood path).

    Python objects become records, dictionaries become [gmap]s, sets become
    [gset]s.  Calls to collaborators (solver, logger, figure and table
    writers, [pdflatex]) are recorded as events of a trace; a raised
    exception stops the computation and keeps the trace emitted so far.

    Python's true division [float(a) / b] on counts is represented by the
    exact rational [a # b]; the only exceptional behaviour of that
    expression, [ZeroDivisionError] for [b = 0], is kept. *)

From Stdlib Require Import QArith Ascii String.
From stdpp Require Import gmap strings list fin_maps fin_sets sorting.

Local Open Scope nat_scope.

(** ** Values shared by both paths *)

(** A mutation pattern is a presence/absence bit-vector over the samples. *)
Abbreviation pattern := (list bool).

(** The inferred tree: a graph whose nodes are sample subsets and whose
    edges carry the mutations acquired on them
    ([tree[v1][v2]['muts']] in the source).  The parent [None] is the
    germline root, [tikz.TREE_ROOT]. *)
Record tree := Tree {
  tree_edges : list (option (gset nat) * gset nat * list nat)
}.

(** The attributes of [patient] that the orchestration layer reads. *)
Record Patient := {
  sample_names : list string;
  (* sample index -> mutations present in that sample *)
  samples : gmap nat (gset nat);
  (* mutation index -> samples in which the variant is present *)
  variants : gmap nat (list nat);
  present_mutations : gset nat;
  (* mutation index -> its mutation pattern *)
  mps : gmap nat pattern
}.

(** The errors [subprocess.call] raises when the working directory of the
    command cannot be entered; all of them are [OSError]s. *)
Inductive oserror := FileNotFoundError | NotADirectoryError | PermissionError.

Inductive exn := ZeroDivisionError | OSError (e : oserror).

(** [float(a) / b] for two counts. *)
Definition true_div (a b : nat) : exn + Q :=
  match b with
  | 0 => inl ZeroDivisionError
  | S _ => inr (Z.of_nat a # Pos.of_nat b)
  end.

(** Floating-point values that can reach [germline_distance]. *)
Inductive pyfloat := FVal (q : Q) | PInf | NaN.

(** ** Captions and log messages (format arguments kept structured) *)

Record simple_caption := {
  sc_excluded : nat;
  sc_present : nat;
  sc_fraction : Q
}.

Record classification_info := {
  ci_fps : nat;
  ci_fns : nat;
  ci_fn_unknowns : nat
}.

(** The non-empty [compatibility_info]; the empty string is [None]. *)
Record compatibility_note := {
  cn_conflicting : nat;
  cn_fraction : Q
}.

Record mlh_caption := {
  cap_artifacts : nat;
  cap_out_of : nat;
  cap_fraction : Q;
  cap_classification : classification_info;
  cap_compatibility : option compatibility_note
}.

Inductive caption :=
| SimpleCaption (c : simple_caption)
| MaxLHCaption (c : mlh_caption).

Inductive level := DEBUG | INFO | WARNING | ERROR.

Inductive message :=
| MsgCompatiblePresent (sa_name : string) (count : nat) (muts : list nat)
| MsgClassification (ci : classification_info)
| MsgEteTree (tree_plot : string)
| MsgImportError
| MsgTikzpath (tikz_path tikz_file : string)
| MsgPdfCreated (pdf_tree : string)
| MsgPdfNotCreated
| MsgNoTree.

(** ** Events: every call that leaves the module *)

Inductive event :=
| FindMaxCompatibleTree (time_limit : option nat)
| InferMaxLHTree (subclone_detection : bool) (max_no_mps : option nat)
    (pool_size : nat) (time_limit : option nat) (no_bootstrap_samples : nat)
| Log (lv : level) (msg : message)
| EteCreateTree (t : tree) (filepath : string) (drivers : gset string)
| TikzCreateFigureFile (t : tree) (filepath : string) (c : caption)
    (drivers : gset string) (germline_distance : option pyfloat)
| LatexAddBranchMutInfo (filepath : string) (t : tree)
| LatexAddArtifactInfo (filepath : string)
| Call (cmd : string) (cwd : string)
| WriteMutationMatrix (filepath : string)
| WriteMutationPatterns (filepath : string).

(** Events that create or modify a file. *)
Definition writes_file (ev : event) : bool :=
  match ev with
  | EteCreateTree _ _ _ | TikzCreateFigureFile _ _ _ _ _
  | LatexAddBranchMutInfo _ _ | LatexAddArtifactInfo _ | Call _ _
  | WriteMutationMatrix _ | WriteMutationPatterns _ => true
  | FindMaxCompatibleTree _ | InferMaxLHTree _ _ _ _ _ | Log _ _ => false
  end.


(** ** The computation monad: a trace and a result or an exception *)

Definition M (A : Type) : Type := list event * (exn + A).

Definition ret {A} (a : A) : M A := ([], inr a).
Definition raise {A} (e : exn) : M A := ([], inl e).
Definition emit (ev : event) : M unit := ([ev], inr tt).
Definition lift {A} (r : exn + A) : M A := ([], r).

Definition bind {A B} (m : M A) (k : A → M B) : M B :=
  match m with
  | (t, inl e) => (t, inl e)
  | (t, inr a) => let '(t', r) := k a in (t ++ t', r)
  end.

Notation "'do' x <- m ; k" := (bind m (fun x => k))
  (at level 10, x name, m at level 99, k at level 200).
Notation "m ;; k" := (bind m (fun _ => k))
  (at level 100, k at level 200, right associativity).

Definition when (b : bool) (m : M unit) : M unit := if b then m else ret tt.

Definition trace {A} (m : M A) : list event := m.1.
Definition outcome {A} (m : M A) : exn + A := m.2.

(** The environment of a run: logger configuration and the behaviour of
    the external tools. *)
Record Env := {
  (* logging.DEBUG == logger.getEffectiveLevel() *)
  debug_enabled : bool;
  (* does [from plots.ete_tree import create_tree] succeed? *)
  ete3_installed : bool;
  (* value returned by plots.ete_tree.create_tree *)
  ete_tree_plot : string → string;
  (* value returned by tikz.create_figure_file *)
  tikz_figure_file : string → string;
  (* [call(cmd, shell=True, cwd=...)] for a named working directory: the
     error raised when the directory cannot be entered, or else the return
     code of the command *)
  call_result : string → string → oserror + Z
}.

(** ** The phylogeny objects

    [SimplePhylogeny] and [MaxLHPhylogeny] live in the [phylogeny] package.
    The orchestration layer constructs them, calls their solver method and
    then reads the attributes below. *)

Module Simple.
Record phylogeny := {
  patient : Patient;
  mps : gmap nat pattern;
  compatible_mutations : gset nat;
  conflicting_mutations : gset nat
}.
End Simple.

Module MaxLH.
Record phylogeny := {
  patient : Patient;
  false_positives : gmap nat (gset nat);
  false_negatives : gmap nat (gset nat);
  false_negative_unknowns : gmap nat (gset nat);
  (* [None] unless the search space was limited *)
  conflicting_mutations : option (gset nat);
  max_lh_mutations : gset nat;
  mlh_founders : gset nat;
  tree_plot : option string
}.

(** [mlh_pg.tree_plot = v] *)
Definition set_tree_plot (v : string) (pg : phylogeny) : phylogeny :=
  {| patient := patient pg;
     false_positives := false_positives pg;
     false_negatives := false_negatives pg;
     false_negative_unknowns := false_negative_unknowns pg;
     conflicting_mutations := conflicting_mutations pg;
     max_lh_mutations := max_lh_mutations pg;
     mlh_founders := mlh_founders pg;
     tree_plot := Some v |}.
End MaxLH.

(** The part of class [SimplePhylogeny] used here: the constructor and
    [find_max_compatible_tree], which returns the tree and leaves its
    results in the object. *)
Class SimplePhylogenyClass := {
  SimplePhylogeny : Patient → gmap nat pattern → Simple.phylogeny;
  find_max_compatible_tree :
    Simple.phylogeny → option nat → tree * Simple.phylogeny
}.

(** The part of class [MaxLHPhylogeny] used here.  [infer_max_lh_tree]
    returns [None] when no tree could be inferred. *)
Class MaxLHPhylogenyClass := {
  MaxLHPhylogeny : Patient → gmap nat pattern → Q → MaxLH.phylogeny;
  infer_max_lh_tree :
    MaxLH.phylogeny → ∀ (subclone_detection : bool) (max_no_mps : option nat)
      (pool_size : nat) (time_limit : option nat) (no_bootstrap_samples : nat),
      option tree * MaxLH.phylogeny
}.

(** What a call can hand back to its caller. *)
Inductive pyvalue :=
| VNone
| VTree (t : tree)
| VSimplePhylogeny (pg : Simple.phylogeny)
| VMaxLHPhylogeny (pg : MaxLH.phylogeny).

(** ** [infer_max_compatible_tree] *)

(** [infer_max_compatible_tree(filepath, patient, drivers=set(),
    time_limit=None)]: keyword arguments the caller may leave out. *)
Record simple_kwargs := {
  skw_drivers : option (gset string);
  skw_time_limit : option (option nat)
}.

(** The exclusion caption of lines 39-44. *)
Definition exclusion_caption (pg : Simple.phylogeny) : exn + simple_caption :=
  let no_present_muts :=
    size (Simple.compatible_mutations pg) + size (Simple.conflicting_mutations pg) in
  match true_div (size (Simple.conflicting_mutations pg)) no_present_muts with
  | inl e => inl e
  | inr f =>
      inr {| sc_excluded := size (Simple.conflicting_mutations pg);
             sc_present := no_present_muts;
             sc_fraction := f |}
  end.

(** The debug message of lines 55-58 for one sample. *)
Definition debug_compatible (patient : Patient) (pg : Simple.phylogeny)
    (sa : nat * string) : M unit :=
  let muts :=
    filter (λ mut, mut ∈ Simple.compatible_mutations pg)
           (elements (default ∅ (samples patient !! sa.1))) in
  emit (Log DEBUG (MsgCompatiblePresent sa.2 (length muts) muts)).

Fixpoint for_each {A} (f : A → M unit) (l : list A) : M unit :=
  match l with
  | [] => ret tt
  | x :: l' => f x ;; for_each f l'
  end.

Definition infer_max_compatible_tree `{SimplePhylogenyClass} (env : Env)
    (filepath : string) (patient : Patient) (kw : simple_kwargs) : M pyvalue :=
  let drivers := default ∅ (skw_drivers kw) in
  let time_limit := default None (skw_time_limit kw) in
  let phylogeny := SimplePhylogeny patient (mps patient) in
  emit (FindMaxCompatibleTree time_limit) ;;
  let '(simple_tree, phylogeny) := find_max_compatible_tree phylogeny time_limit in
  do caption <- lift (exclusion_caption phylogeny);
  emit (TikzCreateFigureFile simple_tree filepath (SimpleCaption caption)
          drivers None) ;;
  emit (LatexAddBranchMutInfo filepath simple_tree) ;;
  when (debug_enabled env)
    (for_each (debug_compatible patient phylogeny)
       (imap (λ sa_idx sa_name, (sa_idx, sa_name)) (sample_names patient))) ;;
  ret (VSimplePhylogeny phylogeny).

(** ** [create_max_lh_tree] *)

Record max_lh_kwargs := {
  kw_tree_filepath : option (option string);
  kw_mm_filepath : option (option string);
  kw_mp_filepath : option (option string);
  kw_subclone_detection : option bool;
  kw_loh_frequency : option Q;
  kw_drivers : option (gset string);
  kw_max_no_mps : option (option nat);
  kw_time_limit : option (option nat);
  kw_plots : option bool;
  kw_pool_size : option nat;
  kw_no_bootstrap_samples : option nat
}.

(** The parameters after the defaults of the [def] line are filled in. *)
Record max_lh_args := {
  tree_filepath : option string;
  mm_filepath : option string;
  mp_filepath : option string;
  subclone_detection : bool;
  loh_frequency : Q;
  drivers : gset string;
  max_no_mps : option nat;
  time_limit : option nat;
  plots : bool;
  pool_size : nat;
  no_bootstrap_samples : nat
}.

Definition bind_args (kw : max_lh_kwargs) : max_lh_args :=
  {| tree_filepath := default None (kw_tree_filepath kw);
     mm_filepath := default None (kw_mm_filepath kw);
     mp_filepath := default None (kw_mp_filepath kw);
     subclone_detection := default false (kw_subclone_detection kw);
     loh_frequency := default 0%Q (kw_loh_frequency kw);
     drivers := default ∅ (kw_drivers kw);
     max_no_mps := default None (kw_max_no_mps kw);
     time_limit := default None (kw_time_limit kw);
     plots := default true (kw_plots kw);
     pool_size := default 0 (kw_pool_size kw);
     no_bootstrap_samples := default 0 (kw_no_bootstrap_samples kw) |}.

(** [sum(len(v) for mut_idx, v in d.items())] *)
Definition no_flagged (d : gmap nat (gset nat)) : nat :=
  sum_list_with (λ kv, size kv.2) (map_to_list d).

Definition classification (pg : MaxLH.phylogeny) : classification_info :=
  {| ci_fps := no_flagged (MaxLH.false_positives pg);
     ci_fns := no_flagged (MaxLH.false_negatives pg);
     ci_fn_unknowns := no_flagged (MaxLH.false_negative_unknowns pg) |}.

(** Lines 112-118. *)
Definition compatibility_info (pg : MaxLH.phylogeny)
    : exn + option compatibility_note :=
  match MaxLH.conflicting_mutations pg with
  | Some conflicting =>
      match true_div (size conflicting)
              (size (MaxLH.max_lh_mutations pg) + size conflicting) with
      | inl e => inl e
      | inr f => inr (Some {| cn_conflicting := size conflicting;
                              cn_fraction := f |})
      end
  | None => inr None
  end.

(** Lines 105-126: counts, log entry and caption. *)
Definition mlh_summary (patient : Patient) (pg : MaxLH.phylogeny) : M mlh_caption :=
  let present_mutations := present_mutations patient in
  let no_fps := no_flagged (MaxLH.false_positives pg) in
  let no_fns := no_flagged (MaxLH.false_negatives pg) in
  let classification_info := classification pg in
  do compatibility_info <- lift (compatibility_info pg);
  emit (Log INFO (MsgClassification classification_info)) ;;
  let out_of := length (sample_names patient) * size present_mutations in
  do fraction <- lift (true_div (no_fps + no_fns) out_of);
  ret {| cap_artifacts := no_fps + no_fns;
         cap_out_of := out_of;
         cap_fraction := fraction;
         cap_classification := classification_info;
         cap_compatibility := compatibility_info |}.

(** [np.median] of a list of counts. *)
Definition median (l : list nat) : pyfloat :=
  let s := merge_sort Nat.le l in
  let n := length s in
  if decide (n = 0) then NaN
  else if Nat.odd n then FVal (inject_Z (Z.of_nat (nth (n / 2) s 0)))
  else FVal (Z.of_nat (nth (n / 2 - 1) s 0 + nth (n / 2) s 0) # 2).

(** Lines 130-133. *)
Definition median_no_muts (pg : MaxLH.phylogeny) : pyfloat :=
  let values := (map_to_list (variants (MaxLH.patient pg))).*2 in
  if decide (0 < length values) then median (length <$> values) else NaN.

(** [n / x] for a count [n] and a non-negative float [x]: a NumPy float
    divisor yields [inf] or [nan] at zero instead of raising. *)
Definition div_count (n : nat) (x : pyfloat) : pyfloat :=
  match x with
  | NaN => NaN
  | PInf => FVal 0
  | FVal q =>
      if Qeq_bool q 0 then (if decide (n = 0) then NaN else PInf)
      else FVal (inject_Z (Z.of_nat n) / q)
  end.

(** [10.0 * max(1.0, x)]: [max] keeps its first argument unless the second
    compares greater, so a NaN is replaced by [1.0]. *)
Definition germline_distance (x : pyfloat) : pyfloat :=
  match x with
  | NaN => FVal 10
  | PInf => PInf
  | FVal q => if Qle_bool q 1 then FVal 10 else FVal (10 * q)
  end.

(** [os.path.split] (POSIX): the tail is what follows the last slash; the
    head loses its trailing slashes unless it consists of slashes only. *)
Definition is_sep (c : ascii) : bool := bool_decide (c = "/"%char).

Fixpoint span_tail (r : list ascii) : list ascii * list ascii :=
  match r with
  | [] => ([], [])
  | c :: r' =>
      if is_sep c then ([], r)
      else let '(t, h) := span_tail r' in (c :: t, h)
  end.

Fixpoint rstrip_sep (r : list ascii) : list ascii :=
  match r with
  | [] => []
  | c :: r' => if is_sep c then rstrip_sep r' else r
  end.

Definition path_split (p : string) : string * string :=
  let '(tail_r, head_r) := span_tail (reverse (list_ascii_of_string p)) in
  let head_r := if forallb is_sep head_r then head_r else rstrip_sep head_r in
  (string_of_list_ascii (reverse head_r), string_of_list_ascii (reverse tail_r)).

(** [s.replace(old, new)] for a non-empty [old]: [skip] counts the
    characters of a match that are still to be dropped. *)
Fixpoint replace_from (old new : string) (skip : nat) (s : string) : string :=
  match s with
  | EmptyString => EmptyString
  | String c s' =>
      match skip with
      | S k => replace_from old new k s'
      | 0 =>
          if String.prefix old s
          then (new ++ replace_from old new (String.length old - 1) s')%string
          else String c (replace_from old new 0 s')
      end
  end.

Definition replace (old new s : string) : string := replace_from old new 0 s.

(** [call(cmd, shell=True, cwd=cwd, stdout=fnull)]: the working directory
    is entered before the command runs.  The empty string names no
    directory, so an empty [cwd] raises [FileNotFoundError]; for any other
    [cwd] the environment decides. *)
Definition call_outcome (env : Env) (cmd cwd : string) : oserror + Z :=
  if decide (cwd = ""%string) then inl FileNotFoundError
  else call_result env cmd cwd.

(** The event [Call] records that the command has run. *)
Definition subprocess_call (env : Env) (cmd cwd : string) : M Z :=
  match call_outcome env cmd cwd with
  | inl e => raise (OSError e)
  | inr return_code => emit (Call cmd cwd) ;; ret return_code
  end.

(** Lines 137-167: the figure outputs. *)
Definition plot_tree (env : Env) (a : max_lh_args) (mlh_tree : tree)
    (tree_filepath : string) (caption : mlh_caption) (median_no_muts : pyfloat)
    (mlh_pg : MaxLH.phylogeny) : M MaxLH.phylogeny :=
  do mlh_pg <-
    (if ete3_installed env then
       emit (EteCreateTree mlh_tree tree_filepath (drivers a)) ;;
       let mlh_pg := MaxLH.set_tree_plot (ete_tree_plot env tree_filepath) mlh_pg in
       emit (Log INFO (MsgEteTree (ete_tree_plot env tree_filepath))) ;;
       ret mlh_pg
     else
       emit (Log WARNING MsgImportError) ;;
       ret mlh_pg);
  let full_tex := (tree_filepath ++ "_full.tex")%string in
  emit (TikzCreateFigureFile mlh_tree full_tex (MaxLHCaption caption) (drivers a)
          (Some (germline_distance
                   (div_count (size (MaxLH.mlh_founders mlh_pg)) median_no_muts)))) ;;
  let tikz_tree := tikz_figure_file env full_tex in
  emit (LatexAddBranchMutInfo tree_filepath mlh_tree) ;;
  emit (LatexAddArtifactInfo tree_filepath) ;;
  let '(tikz_path, tikz_file) := path_split tikz_tree in
  emit (Log DEBUG (MsgTikzpath tikz_path tikz_file)) ;;
  let pdflatex_cmd := ("pdflatex " ++ tikz_file)%string in
  do return_code <- subprocess_call env pdflatex_cmd tikz_path;
  (if (return_code =? 0)%Z
   then emit (Log INFO (MsgPdfCreated (replace ".tex" ".pdf" tikz_tree)))
   else emit (Log ERROR MsgPdfNotCreated)) ;;
  ret mlh_pg.

(** Lines 102-174: what happens once a tree has been inferred. *)
Definition report_tree (env : Env) (patient : Patient) (a : max_lh_args)
    (mlh_tree : tree) (mlh_pg : MaxLH.phylogeny) : M MaxLH.phylogeny :=
  do caption <- mlh_summary patient mlh_pg;
  let median_no_muts := median_no_muts mlh_pg in
  do mlh_pg <-
    match plots a, tree_filepath a with
    | true, Some tree_filepath =>
        plot_tree env a mlh_tree tree_filepath caption median_no_muts mlh_pg
    | _, _ => ret mlh_pg
    end;
  match mm_filepath a with
  | Some mm_filepath => emit (WriteMutationMatrix mm_filepath)
  | None => ret tt
  end ;;
  match mp_filepath a with
  | Some mp_filepath => emit (WriteMutationPatterns mp_filepath)
  | None => ret tt
  end ;;
  ret mlh_pg.

Definition create_max_lh_tree `{MaxLHPhylogenyClass} (env : Env)
    (patient : Patient) (kw : max_lh_kwargs) : M pyvalue :=
  let a := bind_args kw in
  let mlh_pg := MaxLHPhylogeny patient (mps patient) (loh_frequency a) in
  emit (InferMaxLHTree (subclone_detection a) (max_no_mps a) (pool_size a)
          (time_limit a) (no_bootstrap_samples a)) ;;
  let '(mlh_tree, mlh_pg) :=
    infer_max_lh_tree mlh_pg (subclone_detection a) (max_no_mps a) (pool_size a)
      (time_limit a) (no_bootstrap_samples a) in
  do mlh_pg <-
    match mlh_tree with
    | Some mlh_tree => report_tree env patient a mlh_tree mlh_pg
    | None => emit (Log WARNING MsgNoTree) ;; ret mlh_pg
    end;
  ret (VMaxLHPhylogeny mlh_pg).

(** ** The mutation pattern model and the simple solver

    The [phylogeny] package is outside the orchestration module; the
    definitions of this section follow the specification of the pattern
    model (sections 3 and 4.1), of the simple solver (4.2) and of the tree
    builder (4.6). *)

(** Modelled from the spec: the sample subset S(P) of a pattern, "the set
    of samples where the pattern is present" (the pattern model of the
    [phylogeny] package is missing). *)
Fixpoint subset_from (i : nat) (P : pattern) : gset nat :=
  match P with
  | [] => ∅
  | b :: P' => (if b : bool then {[i]} else ∅) ∪ subset_from (S i) P'
  end.

Definition sample_subset (P : pattern) : gset nat := subset_from 0 P.

(** Modelled from the spec: the compatibility test of the missing pattern
    model, "compatible iff S(P)∩S(Q) ∈ {∅, S(P), S(Q)}". *)
Definition compatible (P Q : pattern) : bool :=
  bool_decide (sample_subset P ∩ sample_subset Q
               ∈ [∅; sample_subset P; sample_subset Q]).

(** Modelled from the spec: a variant is present when its pattern marks at
    least one sample; the rows of the present variants are the input of
    the missing simple solver. *)
Definition is_present (P : pattern) : bool := existsb id P.

Definition present_rows (rows : gmap nat pattern) : gmap nat pattern :=
  filter (λ kv, is_present kv.2 = true) rows.

(** Modelled from the spec: "equal vectors are deduplicated with a
    multiplicity/weight (number of variants)" (missing pattern model). *)
Definition distinct_patterns (rows : gmap nat pattern) : list pattern :=
  remove_dups (map_to_list rows).*2.

Definition variants_of (rows : gmap nat pattern) (P : pattern) : gset nat :=
  dom (filter (λ kv, kv.2 = P) rows).

Definition weight (rows : gmap nat pattern) (P : pattern) : nat :=
  size (variants_of rows P).

Definition total_weight (rows : gmap nat pattern) (sel : list pattern) : nat :=
  sum_list_with (weight rows) sel.

Definition pairwise_compatible (sel : list pattern) : bool :=
  forallb (λ P, forallb (compatible P) sel) sel.

Fixpoint sublists {A} (l : list A) : list (list A) :=
  match l with
  | [] => [[]]
  | x :: l' => let r := sublists l' in (cons x <$> r) ++ r
  end.

Definition heavier (rows : gmap nat pattern) (best cand : list pattern)
    : list pattern :=
  if decide (total_weight rows best < total_weight rows cand) then cand else best.

(** Modelled from the spec: the missing simple solver chooses "the subset
    of patterns that (a) is pairwise compatible and (b) maximizes total
    weight"; the optimum is found by enumerating the compatible subsets. *)
Definition max_compatible_subset (rows : gmap nat pattern) : list pattern :=
  foldl (heavier rows) []
    (filter (λ sel, pairwise_compatible sel = true)
            (sublists (distinct_patterns rows))).

(** Modelled from the spec: the missing tree builder; "a pattern's parent
    is the unique minimal realized pattern whose subset strictly contains
    it", otherwise the root, and each edge carries the variants of the
    child's pattern. *)
Definition smaller_superset (P : pattern) (best : option pattern) (Q : pattern)
    : option pattern :=
  if bool_decide (sample_subset P ⊂ sample_subset Q) then
    match best with
    | Some B =>
        if decide (size (sample_subset Q) < size (sample_subset B))
        then Some Q else best
    | None => Some Q
    end
  else best.

Definition parent_of (sel : list pattern) (P : pattern) : option (gset nat) :=
  sample_subset <$> foldl (smaller_superset P) None sel.

Definition build_tree (rows : gmap nat pattern) (sel : list pattern) : tree :=
  Tree ((λ P, (parent_of sel P, sample_subset P, elements (variants_of rows P)))
          <$> sel).

(** Modelled from the spec: the missing [find_max_compatible_tree];
    "variants whose pattern was not selected are reported as
    conflicting/ignored — never forced into a different pattern". *)
Definition spec_find_max_compatible_tree (pg : Simple.phylogeny)
    (time_limit : option nat) : tree * Simple.phylogeny :=
  let rows := present_rows (Simple.mps pg) in
  let sel := max_compatible_subset rows in
  (build_tree rows sel,
   {| Simple.patient := Simple.patient pg;
      Simple.mps := Simple.mps pg;
      Simple.compatible_mutations := dom (filter (λ kv, kv.2 ∈ sel) rows);
      Simple.conflicting_mutations := dom (filter (λ kv, kv.2 ∉ sel) rows) |}).

(** Modelled from the spec: the missing class [SimplePhylogeny], with a
    constructor that stores its arguments. *)
Definition spec_simple_phylogeny : SimplePhylogenyClass :=
  {| SimplePhylogeny patient mps :=
       {| Simple.patient := patient;
          Simple.mps := mps;
          Simple.compatible_mutations := ∅;
          Simple.conflicting_mutations := ∅ |};
     find_max_compatible_tree := spec_find_max_compatible_tree |}.

(** ** Vocabulary of the statements *)

(** Number of samples flagged for variant [mut] in a classification table;
    a variant without an entry has none. *)
Definition flagged (d : gmap nat (gset nat)) (mut : nat) : nat :=
  size (default ∅ (d !! mut)).

Definition sum_over (V : gset nat) (f : nat → nat) : nat :=
  sum_list_with f (elements V).

(** Both fractions of the caption have a non-zero denominator. *)
Definition fractions_defined (patient : Patient) (pg : MaxLH.phylogeny) : Prop :=
  length (sample_names patient) * size (present_mutations patient) ≠ 0 ∧
  ∀ conflicting, MaxLH.conflicting_mutations pg = Some conflicting →
    size (MaxLH.max_lh_mutations pg) + size conflicting ≠ 0.

(** The events of lines 135-167: tree figure, LaTeX additions, [pdflatex]. *)
Definition is_figure_output (ev : event) : bool :=
  match ev with
  | EteCreateTree _ _ _ | TikzCreateFigureFile _ _ _ _ _
  | LatexAddBranchMutInfo _ _ | LatexAddArtifactInfo _ | Call _ _ => true
  | _ => false
  end.

(** The call [create_max_lh_tree(patient)]: every keyword left out. *)
Definition no_kwargs : max_lh_kwargs :=
  {| kw_tree_filepath := None; kw_mm_filepath := None; kw_mp_filepath := None;
     kw_subclone_detection := None; kw_loh_frequency := None;
     kw_drivers := None; kw_max_no_mps := None; kw_time_limit := None;
     kw_plots := None; kw_pool_size := None; kw_no_bootstrap_samples := None |}.

(** ** Concrete runs *)

Module Examples.

Definition env : Env :=
  {| debug_enabled := false;
     ete3_installed := false;
     ete_tree_plot := λ p, (p ++ ".png")%string;
     tikz_figure_file := λ p, p;
     call_result := λ _ _, inr 0%Z |}.

(** Three samples and four present variants with the patterns
    {1,2,3}, {1,2}, {1,2}, {3}; a fifth variant is absent everywhere. *)
Definition patient : Patient :=
  {| sample_names := ["S1"; "S2"; "S3"]%string;
     samples := list_to_map [(0, {[0; 1; 2]}); (1, {[0; 1; 2]}); (2, {[0; 3]})];
     variants := list_to_map [(0, [0; 1; 2]); (1, [0; 1]); (2, [0; 1]); (3, [2])];
     present_mutations := {[0; 1; 2; 3]};
     mps := list_to_map
              [(0, [true; true; true]); (1, [true; true; false]);
               (2, [true; true; false]); (3, [false; false; true]);
               (4, [false; false; false])] |}.

(** One sample, no variant at all. *)
Definition no_variants : Patient :=
  {| sample_names := ["S1"]%string;
     samples := ∅; variants := ∅; present_mutations := ∅; mps := ∅ |}.

(** No sample and no variant. *)
Definition no_samples : Patient :=
  {| sample_names := [];
     samples := ∅; variants := ∅; present_mutations := ∅; mps := ∅ |}.

(** The tree of a patient without variants: the root alone. *)
Definition root_only : tree := Tree [].

Definition a_tree : tree :=
  Tree [(None, {[0; 1; 2]}, [0]); (Some {[0; 1; 2]}, {[0; 1]}, [1; 2]);
        (Some {[0; 1; 2]}, {[2]}, [3])].

(** Classification tables as a solver may leave them: variant 1 is a
    putative false-negative in sample 3, variant 3 a putative
    false-positive in samples 1 and 2. *)
Definition solved (p : Patient) (conflicting : option (gset nat))
    : MaxLH.phylogeny :=
  {| MaxLH.patient := p;
     MaxLH.false_positives := {[3 := {[0; 1]}]};
     MaxLH.false_negatives := {[1 := {[2]}]};
     MaxLH.false_negative_unknowns := ∅;
     MaxLH.conflicting_mutations := conflicting;
     MaxLH.max_lh_mutations := {[0; 1; 2]};
     MaxLH.mlh_founders := {[0]};
     MaxLH.tree_plot := None |}.

Definition unsolved (p : Patient) : MaxLH.phylogeny :=
  {| MaxLH.patient := p;
     MaxLH.false_positives := ∅;
     MaxLH.false_negatives := ∅;
     MaxLH.false_negative_unknowns := ∅;
     MaxLH.conflicting_mutations := None;
     MaxLH.max_lh_mutations := ∅;
     MaxLH.mlh_founders := ∅;
     MaxLH.tree_plot := None |}.

(** A stand-in for class [MaxLHPhylogeny] that answers as scripted: no
    tree when no candidate pattern is allowed ([max_no_mps = 0]),
    otherwise the tree [t] and the object [after]. *)
Definition scripted (t : tree) (after : Patient → MaxLH.phylogeny)
    : MaxLHPhylogenyClass :=
  {| MaxLHPhylogeny p _ _ := unsolved p;
     infer_max_lh_tree pg _ max_no_mps _ _ _ :=
       match max_no_mps with
       | Some 0 => (None, pg)
       | _ => (Some t, after (MaxLH.patient pg))
       end |}.

Definition outputs (tree_fp mm_fp mp_fp : option string) (plots : bool)
    : max_lh_kwargs :=
  {| kw_tree_filepath := Some tree_fp; kw_mm_filepath := Some mm_fp;
     kw_mp_filepath := Some mp_fp; kw_subclone_detection := None;
     kw_loh_frequency := None; kw_drivers := None; kw_max_no_mps := None;
     kw_time_limit := None; kw_plots := Some plots; kw_pool_size := None;
     kw_no_bootstrap_samples := None |}.

(** [create_max_lh_tree(patient, max_no_mps=0, plots=False)] *)
Definition nothing_allowed : max_lh_kwargs :=
  {| kw_tree_filepath := None; kw_mm_filepath := None; kw_mp_filepath := None;
     kw_subclone_detection := None; kw_loh_frequency := None;
     kw_drivers := None; kw_max_no_mps := Some (Some 0); kw_time_limit := None;
     kw_plots := Some false; kw_pool_size := None;
     kw_no_bootstrap_samples := None |}.

Definition simple_call : simple_kwargs :=
  {| skw_drivers := None; skw_time_limit := None |}.

End Examples.

(** The caption built by lines 121-126 when both fractions are defined. *)
Definition caption_of (patient : Patient) (pg : MaxLH.phylogeny) : mlh_caption :=
  let artifacts :=
    no_flagged (MaxLH.false_positives pg) + no_flagged (MaxLH.false_negatives pg) in
  let out_of := length (sample_names patient) * size (present_mutations patient) in
  {| cap_artifacts := artifacts;
     cap_out_of := out_of;
     cap_fraction := Z.of_nat artifacts # Pos.of_nat out_of;
     cap_classification := classification pg;
     cap_compatibility :=
       (λ conflicting,
          {| cn_conflicting := size conflicting;
             cn_fraction :=
               Z.of_nat (size conflicting)
               # Pos.of_nat (size (MaxLH.max_lh_mutations pg) + size conflicting) |})
       <$> MaxLH.conflicting_mutations pg |}.

(** The object after lines 137-144. *)
Definition after_plot (env : Env) (tree_filepath : string)
    (pg : MaxLH.phylogeny) : MaxLH.phylogeny :=
  if ete3_installed env
  then MaxLH.set_tree_plot (ete_tree_plot env tree_filepath) pg
  else pg.

(** The events of a solved run after the summary, in order: figure
    outputs, mutation matrix, mutation patterns. *)
Definition figure_events (env : Env) (patient : Patient) (a : max_lh_args)
    (t : tree) (pg : MaxLH.phylogeny) : list event :=
  match plots a, tree_filepath a with
  | true, Some fp =>
      trace (plot_tree env a t fp (caption_of patient pg) (median_no_muts pg) pg)
  | _, _ => []
  end.

Definition table_events (a : max_lh_args) : list event :=
  match mm_filepath a with
  | Some p => [WriteMutationMatrix p]
  | None => []
  end ++
  match mp_filepath a with
  | Some p => [WriteMutationPatterns p]
  | None => []
  end.

(** The object a solved run hands back. *)
Definition reported_object (env : Env) (a : max_lh_args)
    (pg : MaxLH.phylogeny) : MaxLH.phylogeny :=
  match plots a, tree_filepath a with
  | true, Some fp => after_plot env fp pg
  | _, _ => pg
  end.

(** The solver call of lines 96-100: the event it leaves in the trace and
    its answer. *)
Definition solve_event (a : max_lh_args) : event :=
  InferMaxLHTree (subclone_detection a) (max_no_mps a) (pool_size a)
    (time_limit a) (no_bootstrap_samples a).

Definition solve `{MaxLHPhylogenyClass} (patient : Patient) (a : max_lh_args)
    : option tree * MaxLH.phylogeny :=
  infer_max_lh_tree (MaxLHPhylogeny patient (mps patient) (loh_frequency a))
    (subclone_detection a) (max_no_mps a) (pool_size a) (time_limit a)
    (no_bootstrap_samples a).

(** The solver call of lines 32-36 and its answer. *)
Definition simple_solve `{SimplePhylogenyClass} (patient : Patient)
    (kw : simple_kwargs) : tree * Simple.phylogeny :=
  find_max_compatible_tree (SimplePhylogeny patient (mps patient))
    (default None (skw_time_limit kw)).

(** An input with zero samples or an empty variant set. *)
Definition empty_input (patient : Patient) : Prop :=
  sample_names patient = [] ∨ variants patient = ∅ ∨ mps patient = ∅.

(** The debug messages of lines 53-58. *)
Definition debug_events (env : Env) (patient : Patient)
    (pg : Simple.phylogeny) : list event :=
  if debug_enabled env then
    trace (for_each (debug_compatible patient pg)
             (imap (λ sa_idx sa_name, (sa_idx, sa_name)) (sample_names patient)))
  else [].

(** ** Vocabulary of the further properties *)

(** The mutations listed by the debug message of sample [sa_idx] (lines
    56-58): those of the sample that are compatible. *)
Definition compatible_in_sample (patient : Patient) (pg : Simple.phylogeny)
    (sa_idx : nat) : list nat :=
  filter (λ mut, mut ∈ Simple.compatible_mutations pg)
         (elements (default ∅ (samples patient !! sa_idx))).

Definition debug_message (patient : Patient) (pg : Simple.phylogeny)
    (sa_idx : nat) (sa_name : string) : event :=
  Log DEBUG (MsgCompatiblePresent sa_name
               (length (compatible_in_sample patient pg sa_idx))
               (compatible_in_sample patient pg sa_idx)).

(** A float that is a number (or infinity) not below ten. *)
Definition at_least_10 (x : pyfloat) : Prop :=
  match x with
  | FVal q => (10 <= q)%Q
  | PInf => True
  | NaN => False
  end.

(** Two phylogeny objects that agree on every attribute but [tree_plot]. *)
Definition same_results (pg pg' : MaxLH.phylogeny) : Prop :=
  MaxLH.patient pg' = MaxLH.patient pg ∧
  MaxLH.false_positives pg' = MaxLH.false_positives pg ∧
  MaxLH.false_negatives pg' = MaxLH.false_negatives pg ∧
  MaxLH.false_negative_unknowns pg' = MaxLH.false_negative_unknowns pg ∧
  MaxLH.conflicting_mutations pg' = MaxLH.conflicting_mutations pg ∧
  MaxLH.max_lh_mutations pg' = MaxLH.max_lh_mutations pg ∧
  MaxLH.mlh_founders pg' = MaxLH.mlh_founders pg.

(** The [pdflatex] call of lines 156-160 for the figure of [tree_filepath]. *)
Definition tikz_tree_of (env : Env) (tree_filepath : string) : string :=
  tikz_figure_file env (tree_filepath ++ "_full.tex")%string.

Definition pdflatex_cmd_of (env : Env) (tree_filepath : string) : string :=
  ("pdflatex " ++ (path_split (tikz_tree_of env tree_filepath)).2)%string.

Definition pdflatex_cwd_of (env : Env) (tree_filepath : string) : string :=
  (path_split (tikz_tree_of env tree_filepath)).1.

(** What the [pdflatex] call of the figure of [tree_filepath] does. *)
Definition pdflatex_call (env : Env) (tree_filepath : string) : oserror + Z :=
  call_outcome env (pdflatex_cmd_of env tree_filepath)
    (pdflatex_cwd_of env tree_filepath).

(** The error, if any, with which the figure block of a run ends. *)
Definition figure_failure (env : Env) (a : max_lh_args) : option oserror :=
  match plots a, tree_filepath a with
  | true, Some fp =>
      match pdflatex_call env fp with
      | inl e => Some e
      | inr _ => None
      end
  | _, _ => None
  end.

(** The tables a run writes after its figure block. *)
Definition tables_written (env : Env) (a : max_lh_args) : list event :=
  match figure_failure env a with
  | None => table_events a
  | Some _ => []
  end.

Module Runs.

(** Debug logging on, ete3 installed, [pdflatex] failing. *)
Definition env : Env :=
  {| debug_enabled := true;
     ete3_installed := true;
     ete_tree_plot := λ p, (p ++ ".png")%string;
     tikz_figure_file := λ p, p;
     call_result := λ _ _, inr 1%Z |}.

Definition solver : MaxLHPhylogenyClass :=
  Examples.scripted Examples.a_tree (λ p, Examples.solved p None).

(** A solver whose recorded conflicts and accepted mutations are both
    empty. *)
Definition nothing_classified (p : Patient) : MaxLH.phylogeny :=
  {| MaxLH.patient := p;
     MaxLH.false_positives := ∅;
     MaxLH.false_negatives := ∅;
     MaxLH.false_negative_unknowns := ∅;
     MaxLH.conflicting_mutations := Some ∅;
     MaxLH.max_lh_mutations := ∅;
     MaxLH.mlh_founders := ∅;
     MaxLH.tree_plot := None |}.

Definition figure_and_matrix : max_lh_kwargs :=
  Examples.outputs (Some "out/tree"%string) (Some "out/matrix.txt"%string)
    None true.

(** [create_max_lh_tree(patient, tree_filepath='tree',
    mm_filepath='out/matrix.txt')]: a figure path without a directory. *)
Definition figure_here_and_matrix : max_lh_kwargs :=
  Examples.outputs (Some "tree"%string) (Some "out/matrix.txt"%string)
    None true.



End Runs.

(** * Properties *)

(** ** The monad *)

Lemma bind_ret_l {A B} (a : A) (k : A → M B) : bind (ret a) k = k a.
Proof. unfold bind, ret. destruct (k a) as [t r]. reflexivity. Qed.

Lemma bind_raise {A B} (t : list event) (e : exn) (k : A → M B) :
  bind (t, inl e) k = (t, inl e).
Proof. reflexivity. Qed.

Lemma bind_value {A B} (t : list event) (a : A) (k : A → M B) :
  bind (t, inr a) k = (t ++ trace (k a), outcome (k a)).
Proof. unfold bind, trace, outcome. destruct (k a). reflexivity. Qed.

Lemma bind_emit {B} (ev : event) (k : unit → M B) :
  bind (emit ev) k = (ev :: trace (k tt), outcome (k tt)).
Proof. unfold emit. rewrite bind_value. reflexivity. Qed.

Lemma true_div_defined (a b : nat) :
  b ≠ 0 → true_div a b = inr (Z.of_nat a # Pos.of_nat b).
Proof. destruct b; [congruence | reflexivity]. Qed.

Lemma true_div_zero (a : nat) : true_div a 0 = inl ZeroDivisionError.
Proof. reflexivity. Qed.

(** ** The summary of a solved instance *)

Lemma compatibility_info_defined (patient : Patient) (pg : MaxLH.phylogeny) :
  fractions_defined patient pg →
  compatibility_info pg = inr (cap_compatibility (caption_of patient pg)).
Proof.
  intros [_ Hden]. unfold compatibility_info, caption_of. simpl.
  destruct (MaxLH.conflicting_mutations pg) as [c|]; [|reflexivity].
  rewrite true_div_defined by (apply Hden; reflexivity). reflexivity.
Qed.

Lemma mlh_summary_defined (patient : Patient) (pg : MaxLH.phylogeny) :
  fractions_defined patient pg →
  mlh_summary patient pg =
    ([Log INFO (MsgClassification (classification pg))],
     inr (caption_of patient pg)).
Proof.
  intros Hdef. unfold mlh_summary, lift, bind, emit, ret.
  rewrite (compatibility_info_defined patient pg Hdef).
  destruct Hdef as [Hout _].
  rewrite true_div_defined by exact Hout. reflexivity.
Qed.

(** When a fraction is undefined the summary raises and no caption exists. *)
Lemma mlh_summary_undefined (patient : Patient) (pg : MaxLH.phylogeny) :
  ¬ fractions_defined patient pg →
  outcome (mlh_summary patient pg) = inl ZeroDivisionError.
Proof.
  intros Hnot. unfold mlh_summary, lift, compatibility_info.
  destruct (MaxLH.conflicting_mutations pg) as [c|] eqn:Hc.
  - destruct (size (MaxLH.max_lh_mutations pg) + size c) eqn:Hden;
      [reflexivity|].
    destruct (length (sample_names patient) * size (present_mutations patient))
      eqn:Hout; [reflexivity|].
    exfalso. apply Hnot. split; [congruence|].
    intros c' Hc'. congruence.
  - destruct (length (sample_names patient) * size (present_mutations patient))
      eqn:Hout; [reflexivity|].
    exfalso. apply Hnot. split; [congruence|]. intros c' Hc'. congruence.
Qed.

(** ** The figure outputs *)

(** Run [plot_tree] symbolically: with or without ete3, whatever path the
    figure writer reports and whatever the [pdflatex] call does. *)
Ltac plot_tree_cases env :=
  unfold plot_tree, subprocess_call, call_outcome, bind, emit, ret, raise,
    trace, outcome;
  destruct (ete3_installed env); simpl;
  destruct (path_split _) as [tikz_path tikz_file]; simpl;
  destruct (decide (tikz_path = ""%string)); simpl;
  try (destruct (call_result env _ _); simpl);
  try match goal with
      | |- context [(?return_code =? 0)%Z] =>
          destruct (return_code =? 0)%Z; simpl
      end.

Lemma plot_tree_outcome env a t fp cap med pg :
  outcome (plot_tree env a t fp cap med pg) =
    match pdflatex_call env fp with
    | inl e => inl (OSError e)
    | inr _ => inr (after_plot env fp pg)
    end.
Proof.
  unfold pdflatex_call, pdflatex_cmd_of, pdflatex_cwd_of, tikz_tree_of,
    after_plot, plot_tree.
  destruct (path_split (tikz_figure_file env (fp ++ "_full.tex")))
    as [tikz_path tikz_file].
  cbn [fst snd]. unfold subprocess_call.
  destruct (call_outcome env _ tikz_path) as [e|return_code];
    unfold bind, emit, ret, raise, outcome;
    destruct (ete3_installed env); cbn [fst snd];
    try destruct (return_code =? 0)%Z; reflexivity.
Qed.

Lemma plot_tree_events env a t fp cap med pg ev :
  ev ∈ trace (plot_tree env a t fp cap med pg) →
  is_figure_output ev = true ∨ ∃ lv msg, ev = Log lv msg.
Proof.
  plot_tree_cases env;
    rewrite ?elem_of_cons, elem_of_nil;
    intros H; repeat destruct H as [->|H]; try (left; reflexivity);
    try (right; eexists _, _; reflexivity); contradiction.
Qed.

Lemma plot_tree_figure env a t fp cap med pg :
  TikzCreateFigureFile t (fp ++ "_full.tex")%string (MaxLHCaption cap) (drivers a)
    (Some (germline_distance
             (div_count (size (MaxLH.mlh_founders pg)) med)))
  ∈ trace (plot_tree env a t fp cap med pg).
Proof. plot_tree_cases env; rewrite ?elem_of_cons; tauto. Qed.

Lemma plot_tree_captions env a t fp cap med pg t' fp' c d g :
  TikzCreateFigureFile t' fp' c d g ∈ trace (plot_tree env a t fp cap med pg) →
  c = MaxLHCaption cap.
Proof.
  plot_tree_cases env;
    rewrite ?elem_of_cons, elem_of_nil;
    intros H; repeat destruct H as [H|H]; try discriminate H;
    try contradiction; injection H; congruence.
Qed.

(** ** A solved run *)

Lemma report_tree_defined env patient a t pg :
  fractions_defined patient pg →
  report_tree env patient a t pg =
    (Log INFO (MsgClassification (classification pg))
       :: figure_events env patient a t pg ++ tables_written env a,
     match figure_failure env a with
     | Some e => inl (OSError e)
     | None => inr (reported_object env a pg)
     end).
Proof.
  intros Hdef. unfold report_tree.
  rewrite (mlh_summary_defined patient pg Hdef), bind_value.
  unfold figure_events, tables_written, table_events, reported_object,
    figure_failure.
  destruct (plots a), (tree_filepath a) as [fp|];
    rewrite ?bind_ret_l;
    try (pose proof (plot_tree_outcome env a t fp (caption_of patient pg)
                       (median_no_muts pg) pg) as Hplot;
         destruct (plot_tree env a t fp _ _ pg) as [evs r];
         unfold outcome in Hplot; simpl in Hplot; subst r;
         destruct (pdflatex_call env fp) as [e|return_code];
         [rewrite bind_raise; unfold trace, outcome; simpl;
          rewrite app_nil_r; reflexivity
         |rewrite bind_value]);
    destruct (mm_filepath a), (mp_filepath a);
    unfold bind, emit, ret, trace, outcome; simpl;
    rewrite ?app_nil_r; reflexivity.
Qed.

Lemma report_tree_undefined env patient a t pg :
  ¬ fractions_defined patient pg →
  outcome (report_tree env patient a t pg) = inl ZeroDivisionError ∧
  ∀ ev, ev ∈ trace (report_tree env patient a t pg) → ∃ lv msg, ev = Log lv msg.
Proof.
  intros Hnot. pose proof (mlh_summary_undefined patient pg Hnot) as Hsum.
  unfold report_tree. destruct (mlh_summary patient pg) as [evs r] eqn:Hs.
  unfold outcome in Hsum. simpl in Hsum. subst r. rewrite bind_raise.
  split; [reflexivity|]. unfold trace. simpl. intros ev Hev.
  revert Hs Hev. unfold mlh_summary, lift, bind, emit, ret.
  destruct (compatibility_info pg); simpl.
  - intros [= <-]. rewrite elem_of_nil. contradiction.
  - destruct (true_div _ _); simpl; intros [= <-]; rewrite list_elem_of_singleton;
      intros ->; eexists _, _; reflexivity.
Qed.

Lemma fractions_defined_dec (patient : Patient) (pg : MaxLH.phylogeny) :
  fractions_defined patient pg ∨ ¬ fractions_defined patient pg.
Proof.
  unfold fractions_defined.
  destruct (decide (length (sample_names patient)
                    * size (present_mutations patient) = 0)) as [Hz|Hnz].
  { right. intros [H _]. contradiction. }
  destruct (MaxLH.conflicting_mutations pg) as [c|].
  - destruct (decide (size (MaxLH.max_lh_mutations pg) + size c = 0)) as [Hc|Hc].
    + right. intros [_ H]. apply (H c); [reflexivity | exact Hc].
    + left. split; [exact Hnz|]. intros c' [= <-]. exact Hc.
  - left. split; [exact Hnz|]. intros c' [=].
Qed.


Lemma tables_written_subset env a ev :
  ev ∈ tables_written env a → ev ∈ table_events a.
Proof.
  unfold tables_written. destruct (figure_failure env a); [|tauto].
  intros []%elem_of_nil.
Qed.

(** ** [create_max_lh_tree], case by case *)

Section CreateMaxLHTree.
Context `{MaxLHPhylogenyClass}.
Variables (env : Env) (patient : Patient) (kw : max_lh_kwargs).

Lemma create_max_lh_tree_no_tree pg :
  solve patient (bind_args kw) = (None, pg) →
  create_max_lh_tree env patient kw =
    ([solve_event (bind_args kw); Log WARNING MsgNoTree],
     inr (VMaxLHPhylogeny pg)).
Proof.
  unfold solve, create_max_lh_tree. intros ->. reflexivity.
Qed.

(** A run whose caption is built: the figure block, then the tables
    unless the [pdflatex] call raised. *)
Lemma create_max_lh_tree_defined t pg :
  solve patient (bind_args kw) = (Some t, pg) →
  fractions_defined patient pg →
  create_max_lh_tree env patient kw =
    (solve_event (bind_args kw)
       :: Log INFO (MsgClassification (classification pg))
       :: figure_events env patient (bind_args kw) t pg
       ++ tables_written env (bind_args kw),
     match figure_failure env (bind_args kw) with
     | Some e => inl (OSError e)
     | None => inr (VMaxLHPhylogeny (reported_object env (bind_args kw) pg))
     end).
Proof.
  unfold solve, create_max_lh_tree. intros -> Hdef.
  rewrite bind_emit, (report_tree_defined _ _ _ _ _ Hdef).
  destruct (figure_failure env (bind_args kw)) as [e|].
  - rewrite bind_raise. reflexivity.
  - rewrite bind_value. unfold trace, outcome, ret. simpl.
    rewrite app_nil_r. reflexivity.
Qed.

Lemma create_max_lh_tree_solved t pg :
  solve patient (bind_args kw) = (Some t, pg) →
  fractions_defined patient pg →
  figure_failure env (bind_args kw) = None →
  create_max_lh_tree env patient kw =
    (solve_event (bind_args kw)
       :: Log INFO (MsgClassification (classification pg))
       :: figure_events env patient (bind_args kw) t pg
       ++ table_events (bind_args kw),
     inr (VMaxLHPhylogeny (reported_object env (bind_args kw) pg))).
Proof.
  intros Hsolve Hdef Hok.
  rewrite (create_max_lh_tree_defined t pg Hsolve Hdef).
  unfold tables_written. rewrite Hok. reflexivity.
Qed.

Lemma create_max_lh_tree_call_raises t pg e :
  solve patient (bind_args kw) = (Some t, pg) →
  fractions_defined patient pg →
  figure_failure env (bind_args kw) = Some e →
  create_max_lh_tree env patient kw =
    (solve_event (bind_args kw)
       :: Log INFO (MsgClassification (classification pg))
       :: figure_events env patient (bind_args kw) t pg,
     inl (OSError e)).
Proof.
  intros Hsolve Hdef Hfail.
  rewrite (create_max_lh_tree_defined t pg Hsolve Hdef).
  unfold tables_written. rewrite Hfail, app_nil_r. reflexivity.
Qed.

Lemma create_max_lh_tree_raises t pg :
  solve patient (bind_args kw) = (Some t, pg) →
  ¬ fractions_defined patient pg →
  ∃ logs,
    create_max_lh_tree env patient kw
      = (solve_event (bind_args kw) :: logs, inl ZeroDivisionError) ∧
    ∀ ev, ev ∈ logs → ∃ lv msg, ev = Log lv msg.
Proof.
  unfold solve, create_max_lh_tree. intros -> Hnot.
  destruct (report_tree_undefined env patient (bind_args kw) t pg Hnot)
    as [Hout Hevs].
  rewrite bind_emit.
  destruct (report_tree env patient (bind_args kw) t pg) as [evs r].
  unfold outcome in Hout. simpl in Hout. subst r. rewrite bind_raise.
  exists evs. split; [reflexivity|]. exact Hevs.
Qed.

End CreateMaxLHTree.

(** ** Counting flagged samples *)

Lemma sum_list_with_agree {A} (f g : A → nat) (l : list A) :
  (∀ x, x ∈ l → f x = g x) → sum_list_with f l = sum_list_with g l.
Proof.
  induction l as [|x l IH]; intros Hfg; simpl; [reflexivity|].
  rewrite (Hfg x) by apply list_elem_of_here.
  rewrite IH; [reflexivity|].
  intros y Hy. apply Hfg, list_elem_of_further, Hy.
Qed.

Lemma sum_over_split (V : gset nat) (mut : nat) (f : nat → nat) :
  mut ∈ V → sum_over V f = f mut + sum_over (V ∖ {[mut]}) f.
Proof.
  intros Hin. unfold sum_over.
  rewrite (union_difference_singleton_L mut V Hin) at 1.
  assert (mut ∉ V ∖ {[mut]}) as Hnotin.
  { intros [_ Hne]%elem_of_difference. apply Hne, elem_of_singleton. reflexivity. }
  rewrite (sum_list_with_Permutation_proper f _ _
             (elements_union_singleton (V ∖ {[mut]}) mut Hnotin)).
  reflexivity.
Qed.

Lemma no_flagged_empty : no_flagged ∅ = 0.
Proof. unfold no_flagged. rewrite map_to_list_empty. reflexivity. Qed.

Lemma no_flagged_insert (d : gmap nat (gset nat)) (mut : nat) (s : gset nat) :
  d !! mut = None → no_flagged (<[mut := s]> d) = size s + no_flagged d.
Proof.
  intros Hfresh. unfold no_flagged.
  rewrite (sum_list_with_Permutation_proper _ _ _
             (map_to_list_insert d mut s Hfresh)).
  reflexivity.
Qed.

Lemma flagged_empty (mut : nat) : flagged ∅ mut = 0.
Proof. unfold flagged. rewrite lookup_empty. apply size_empty. Qed.

Lemma flagged_insert (d : gmap nat (gset nat)) (mut : nat) (s : gset nat) :
  flagged (<[mut := s]> d) mut = size s.
Proof. unfold flagged. rewrite lookup_insert_eq. reflexivity. Qed.

Lemma flagged_insert_ne (d : gmap nat (gset nat)) (mut mut' : nat) (s : gset nat) :
  mut ≠ mut' → flagged (<[mut := s]> d) mut' = flagged d mut'.
Proof. intros Hne. unfold flagged. rewrite lookup_insert_ne by exact Hne. reflexivity. Qed.

(** The count computed from the dictionary items is the sum, over any set
    of variants that covers the table, of the samples flagged per variant. *)
Lemma no_flagged_sum_over (d : gmap nat (gset nat)) :
  ∀ V : gset nat, dom d ⊆ V → no_flagged d = sum_over V (flagged d).
Proof.
  induction d as [|mut s d Hfresh IH] using map_ind; intros V Hdom.
  - rewrite no_flagged_empty. unfold sum_over.
    induction (elements V) as [|x l IHl]; simpl; [reflexivity|].
    rewrite flagged_empty. exact IHl.
  - rewrite no_flagged_insert by exact Hfresh.
    rewrite dom_insert in Hdom.
    assert (mut ∈ V) as Hin.
    { apply Hdom, elem_of_union_l, elem_of_singleton. reflexivity. }
    rewrite (sum_over_split V mut _ Hin), flagged_insert. f_equal.
    rewrite (IH (V ∖ {[mut]})).
    + unfold sum_over. apply sum_list_with_agree.
      intros x [Hx Hne]%elem_of_elements%elem_of_difference.
      rewrite flagged_insert_ne; [reflexivity|].
      intros ->. apply Hne, elem_of_singleton. reflexivity.
    + intros x Hx. apply elem_of_difference. split.
      * apply Hdom, elem_of_union_r, Hx.
      * intros ->%elem_of_singleton.
        apply not_elem_of_dom in Hfresh. contradiction.
Qed.

(** ** Which events a solved run can contain *)

Lemma figure_events_inv env patient a t pg ev :
  ev ∈ figure_events env patient a t pg →
  plots a = true ∧ is_Some (tree_filepath a) ∧
  (is_figure_output ev = true ∨ ∃ lv msg, ev = Log lv msg).
Proof.
  unfold figure_events.
  destruct (plots a), (tree_filepath a) as [fp|];
    try (rewrite elem_of_nil; contradiction).
  intros Hev. split; [reflexivity|]. split; [eexists; reflexivity|].
  eapply plot_tree_events, Hev.
Qed.

Lemma table_events_inv a ev :
  ev ∈ table_events a →
  (∃ p, ev = WriteMutationMatrix p ∧ mm_filepath a = Some p) ∨
  (∃ p, ev = WriteMutationPatterns p ∧ mp_filepath a = Some p).
Proof.
  unfold table_events.
  destruct (mm_filepath a) as [mm|], (mp_filepath a) as [mp|]; simpl;
    rewrite ?elem_of_cons, elem_of_nil; intros Hev;
    repeat destruct Hev as [->|Hev]; try contradiction; eauto.
Qed.

Lemma table_events_matrix a p :
  WriteMutationMatrix p ∈ table_events a ↔ mm_filepath a = Some p.
Proof.
  split.
  - intros [(q & [= ->] & Hq)|(q & [=] & _)]%table_events_inv. exact Hq.
  - unfold table_events. intros ->. apply elem_of_app. left.
    apply list_elem_of_here.
Qed.

Lemma table_events_patterns a p :
  WriteMutationPatterns p ∈ table_events a ↔ mp_filepath a = Some p.
Proof.
  split.
  - intros [(q & [=] & _)|(q & [= ->] & Hq)]%table_events_inv. exact Hq.
  - unfold table_events. intros ->. apply elem_of_app. right.
    apply list_elem_of_here.
Qed.

(** Every event of a solved run with defined fractions. *)
Lemma solved_trace_inv `{MaxLHPhylogenyClass} env patient kw t pg ev :
  solve patient (bind_args kw) = (Some t, pg) →
  fractions_defined patient pg →
  ev ∈ trace (create_max_lh_tree env patient kw) →
  ev = solve_event (bind_args kw) ∨
  ev = Log INFO (MsgClassification (classification pg)) ∨
  ev ∈ figure_events env patient (bind_args kw) t pg ∨
  ev ∈ table_events (bind_args kw).
Proof.
  intros Hsolve Hdef.
  rewrite (create_max_lh_tree_defined env patient kw t pg Hsolve Hdef).
  unfold trace. simpl. rewrite !elem_of_cons, elem_of_app.
  intros [Hev|[Hev|[Hev|Hev]]]; eauto.
  do 3 right. apply (tables_written_subset env), Hev.
Qed.

(** The first two events of a run whose caption is built. *)
Lemma defined_trace_head `{MaxLHPhylogenyClass} env patient kw t pg :
  solve patient (bind_args kw) = (Some t, pg) →
  fractions_defined patient pg →
  take 2 (trace (create_max_lh_tree env patient kw)) =
    [solve_event (bind_args kw);
     Log INFO (MsgClassification (classification pg))].
Proof.
  intros Hsolve Hdef.
  rewrite (create_max_lh_tree_defined env patient kw t pg Hsolve Hdef).
  reflexivity.
Qed.

(** ** No tree inferred *)

(** C1 (as amended): when [infer_max_lh_tree] returns [None],
    [create_max_lh_tree] does nothing but call the solver and log the
    warning "No evolutionary tree has been created": no figure, no
    mutation matrix, no mutation patterns, no classification summary.  It
    returns the phylogeny object exactly as the solver left it; no tree
    and no separate status value is returned. *)
Theorem no_tree_no_outputs `{MaxLHPhylogenyClass} env patient kw pg :
  solve patient (bind_args kw) = (None, pg) →
  let r := create_max_lh_tree env patient kw in
  trace r = [solve_event (bind_args kw); Log WARNING MsgNoTree] ∧
  (∀ ev, ev ∈ trace r → writes_file ev = false) ∧
  (∀ ci, Log INFO (MsgClassification ci) ∉ trace r) ∧
  outcome r = inr (VMaxLHPhylogeny pg).
Proof.
  intros Hsolve r. subst r.
  rewrite (create_max_lh_tree_no_tree env patient kw pg Hsolve).
  unfold trace, outcome. simpl. repeat split.
  - intros ev. rewrite !elem_of_cons, elem_of_nil.
    intros [->|[->|[]]]; reflexivity.
  - intros ci. rewrite !elem_of_cons, elem_of_nil.
    intros [Heq|[Heq|[]]]; discriminate Heq.
Qed.

Lemma no_tree_no_outputs_witness :
  let r := create_max_lh_tree
             (H := Examples.scripted Examples.a_tree (λ p, Examples.solved p None))
             Examples.env Examples.patient Examples.nothing_allowed in
  trace r = [InferMaxLHTree false (Some 0) 0 None 0; Log WARNING MsgNoTree] ∧
  (∀ ev, ev ∈ trace r → writes_file ev = false) ∧
  (∀ ci, Log INFO (MsgClassification ci) ∉ trace r) ∧
  outcome r = inr (VMaxLHPhylogeny (Examples.unsolved Examples.patient)).
Proof.
  exact (no_tree_no_outputs
           (H := Examples.scripted Examples.a_tree (λ p, Examples.solved p None))
           Examples.env Examples.patient Examples.nothing_allowed
           (Examples.unsolved Examples.patient) eq_refl).
Defined.

(** C1 (as stated) fails: the value handed back when no tree was inferred
    is the phylogeny object, and a run that does infer a tree hands back
    the very same value when the solver leaves the object in the same
    state.  The failure is visible in the log only. *)
Lemma no_tree_not_in_returned_value :
  let solver := Examples.scripted Examples.a_tree Examples.unsolved in
  let failed := Examples.nothing_allowed in
  let solved := Examples.outputs None None None false in
  (solve (H := solver) Examples.patient (bind_args failed)).1 = None ∧
  (solve (H := solver) Examples.patient (bind_args solved)).1
    = Some Examples.a_tree ∧
  outcome (create_max_lh_tree (H := solver) Examples.env Examples.patient failed)
    = inr (VMaxLHPhylogeny (Examples.unsolved Examples.patient)) ∧
  outcome (create_max_lh_tree (H := solver) Examples.env Examples.patient failed)
    = outcome (create_max_lh_tree (H := solver) Examples.env Examples.patient solved).
Proof. vm_compute. repeat split; reflexivity. Qed.

(** ** The summary counts of the maximum-likelihood path *)

(** C4: in a solved run the logged count of false-positives is the sum,
    over all variants, of the number of samples flagged false-positive for
    the variant, likewise for false-negatives and false-negative-unknowns;
    the caption counts [no_fps + no_fns] putative artifacts out of
    (number of samples) × (number of present mutations), and every figure
    of the run carries that caption. *)
Theorem classification_counts `{MaxLHPhylogenyClass} env patient kw t pg
    (V : gset nat) :
  solve patient (bind_args kw) = (Some t, pg) →
  fractions_defined patient pg →
  dom (MaxLH.false_positives pg) ⊆ V →
  dom (MaxLH.false_negatives pg) ⊆ V →
  dom (MaxLH.false_negative_unknowns pg) ⊆ V →
  let r := create_max_lh_tree env patient kw in
  let fps := sum_over V (flagged (MaxLH.false_positives pg)) in
  let fns := sum_over V (flagged (MaxLH.false_negatives pg)) in
  let fnus := sum_over V (flagged (MaxLH.false_negative_unknowns pg)) in
  let counts := {| ci_fps := fps; ci_fns := fns; ci_fn_unknowns := fnus |} in
  Log INFO (MsgClassification counts) ∈ trace r ∧
  ∃ cap,
    outcome (mlh_summary patient pg) = inr cap ∧
    cap_classification cap = counts ∧
    cap_artifacts cap = fps + fns ∧
    cap_out_of cap = length (sample_names patient) * size (present_mutations patient) ∧
    cap_fraction cap = (Z.of_nat (fps + fns) # Pos.of_nat (cap_out_of cap)) ∧
    ∀ t' fp c d g, TikzCreateFigureFile t' fp c d g ∈ trace r → c = MaxLHCaption cap.
Proof.
  intros Hsolve Hdef Hfp Hfn Hfnu r fps fns fnus counts.
  assert (classification pg = counts) as Hcounts.
  { unfold classification, counts, fps, fns, fnus.
    rewrite <- !no_flagged_sum_over by assumption. reflexivity. }
  assert (no_flagged (MaxLH.false_positives pg) = fps) as Hfps
    by (apply no_flagged_sum_over, Hfp).
  assert (no_flagged (MaxLH.false_negatives pg) = fns) as Hfns
    by (apply no_flagged_sum_over, Hfn).
  split.
  - subst r. rewrite (create_max_lh_tree_defined env patient kw t pg Hsolve Hdef).
    unfold trace. simpl. rewrite <- Hcounts.
    apply list_elem_of_further, list_elem_of_here.
  - exists (caption_of patient pg).
    rewrite (mlh_summary_defined patient pg Hdef).
    unfold caption_of, outcome. simpl. rewrite Hfps, Hfns.
    repeat split; [exact Hcounts|].
    intros t' fp c d g Hev.
    apply (solved_trace_inv env patient kw t pg _ Hsolve Hdef) in Hev.
    destruct Hev as [Hev|[Hev|[Hev|Hev]]]; try discriminate Hev.
    + unfold figure_events in Hev.
      destruct (plots (bind_args kw)), (tree_filepath (bind_args kw));
        try (apply elem_of_nil in Hev; contradiction).
      apply plot_tree_captions in Hev. subst c. f_equal.
      unfold caption_of. rewrite Hfps, Hfns. reflexivity.
    + apply table_events_inv in Hev.
      destruct Hev as [(p & Hp & _)|(p & Hp & _)]; discriminate Hp.
Qed.

Lemma classification_counts_witness :
  Log INFO (MsgClassification {| ci_fps := 2; ci_fns := 1; ci_fn_unknowns := 0 |})
  ∈ trace (create_max_lh_tree
             (H := Examples.scripted Examples.a_tree (λ p, Examples.solved p None))
             Examples.env Examples.patient
             (Examples.outputs (Some "out/tree"%string) None None true)).
Proof.
  assert (fractions_defined Examples.patient
            (Examples.solved Examples.patient None)) as Hdef.
  { split; [vm_compute; discriminate | intros c Hc; discriminate Hc]. }
  assert (dom (MaxLH.false_positives (Examples.solved Examples.patient None))
          ⊆ ({[0; 1; 2; 3]} : gset nat)) as Hfp.
  { apply (bool_decide_unpack _). vm_compute. exact I. }
  assert (dom (MaxLH.false_negatives (Examples.solved Examples.patient None))
          ⊆ ({[0; 1; 2; 3]} : gset nat)) as Hfn.
  { apply (bool_decide_unpack _). vm_compute. exact I. }
  assert (dom (MaxLH.false_negative_unknowns (Examples.solved Examples.patient None))
          ⊆ ({[0; 1; 2; 3]} : gset nat)) as Hfnu.
  { apply (bool_decide_unpack _). vm_compute. exact I. }
  exact (proj1 (classification_counts
                  (H := Examples.scripted Examples.a_tree
                          (λ p, Examples.solved p None))
                  Examples.env Examples.patient
                  (Examples.outputs (Some "out/tree"%string) None None true)
                  Examples.a_tree (Examples.solved Examples.patient None)
                  {[0; 1; 2; 3]} eq_refl Hdef Hfp Hfn Hfnu)).
Defined.




(** ** Subclone detection *)


(** ** Output files *)

(** Every event of a run in which a tree was inferred. *)
Lemma tree_trace_inv `{MaxLHPhylogenyClass} env patient kw t pg ev :
  solve patient (bind_args kw) = (Some t, pg) →
  ev ∈ trace (create_max_lh_tree env patient kw) →
  ev = solve_event (bind_args kw) ∨
  (∃ lv msg, ev = Log lv msg) ∨
  ev ∈ figure_events env patient (bind_args kw) t pg ∨
  ev ∈ table_events (bind_args kw).
Proof.
  intros Hsolve Hev.
  destruct (fractions_defined_dec patient pg) as [Hdef|Hnot].
  - destruct (solved_trace_inv env patient kw t pg ev Hsolve Hdef Hev)
      as [->|[->|[Hfig|Htab]]]; eauto.
  - destruct (create_max_lh_tree_raises env patient kw t pg Hsolve Hnot)
      as (logs & Hrun & Hlogs).
    rewrite Hrun in Hev. unfold trace in Hev. simpl in Hev.
    apply elem_of_cons in Hev. destruct Hev as [->|Hev]; [left; reflexivity|].
    right. left. apply Hlogs, Hev.
Qed.

(** C9 (as amended): output files are written on demand only.  After a
    successful solve the mutation-matrix file is written only if
    [mm_filepath] is given, the mutation-pattern file only if
    [mp_filepath] is given, the tree figure and the LaTeX outputs only
    when [plots] is true and [tree_filepath] is given; with all of them
    absent the run writes no file.  In a run that returns, each requested
    table is written, and so is the requested figure. *)
Theorem outputs_on_demand `{MaxLHPhylogenyClass} env patient kw t pg :
  solve patient (bind_args kw) = (Some t, pg) →
  let a := bind_args kw in
  let r := create_max_lh_tree env patient kw in
  (∀ p, WriteMutationMatrix p ∈ trace r → mm_filepath a = Some p) ∧
  (∀ p, WriteMutationPatterns p ∈ trace r → mp_filepath a = Some p) ∧
  (∀ ev, ev ∈ trace r → is_figure_output ev = true →
         plots a = true ∧ is_Some (tree_filepath a)) ∧
  (mm_filepath a = None → mp_filepath a = None →
   plots a = false ∨ tree_filepath a = None →
   ∀ ev, ev ∈ trace r → writes_file ev = false) ∧
  (∀ v, outcome r = inr v →
   (∀ p, mm_filepath a = Some p → WriteMutationMatrix p ∈ trace r) ∧
   (∀ p, mp_filepath a = Some p → WriteMutationPatterns p ∈ trace r) ∧
   (∀ fp, plots a = true → tree_filepath a = Some fp →
          ∃ c d g, TikzCreateFigureFile t (fp ++ "_full.tex")%string c d g
                   ∈ trace r)).
Proof.
  intros Hsolve a r.
  pose proof (λ ev, tree_trace_inv env patient kw t pg ev Hsolve) as Hinv.
  fold r in Hinv. fold a in Hinv.
  split; [|split; [|split; [|split]]].
  - intros p Hev.
    destruct (Hinv _ Hev) as [Heq|[(lv & msg & Heq)|[Hfig|Htab]]];
      try discriminate Heq.
    + apply figure_events_inv in Hfig.
      destruct Hfig as (_ & _ & [Hfig|(lv & msg & Heq)]); discriminate.
    + apply table_events_matrix, Htab.
  - intros p Hev.
    destruct (Hinv _ Hev) as [Heq|[(lv & msg & Heq)|[Hfig|Htab]]];
      try discriminate Heq.
    + apply figure_events_inv in Hfig.
      destruct Hfig as (_ & _ & [Hfig|(lv & msg & Heq)]); discriminate.
    + apply table_events_patterns, Htab.
  - intros ev Hev Hfigure.
    destruct (Hinv _ Hev) as [->|[(lv & msg & ->)|[Hfig|Htab]]];
      try discriminate Hfigure.
    + apply figure_events_inv in Hfig. destruct Hfig as (Hp & Hfp & _).
      split; assumption.
    + apply table_events_inv in Htab.
      destruct Htab as [(p & -> & _)|(p & -> & _)]; discriminate Hfigure.
  - intros Hmm Hmp Hnofig ev Hev.
    destruct (Hinv _ Hev) as [->|[(lv & msg & ->)|[Hfig|Htab]]];
      try reflexivity.
    + apply figure_events_inv in Hfig. destruct Hfig as (Hp & [fp Hfp] & _).
      destruct Hnofig as [Hno|Hno]; congruence.
    + apply table_events_inv in Htab.
      destruct Htab as [(p & _ & Hp)|(p & _ & Hp)]; congruence.
  - intros v Hret.
    destruct (fractions_defined_dec patient pg) as [Hdef|Hnot].
    2: { destruct (create_max_lh_tree_raises env patient kw t pg Hsolve Hnot)
           as (logs & Hrun & _).
         subst r. rewrite Hrun in Hret. discriminate Hret. }
    destruct (figure_failure env a) as [e|] eqn:Hfail.
    { subst r a.
      rewrite (create_max_lh_tree_call_raises env patient kw t pg e
                 Hsolve Hdef Hfail) in Hret.
      discriminate Hret. }
    assert (trace r = solve_event a
                      :: Log INFO (MsgClassification (classification pg))
                      :: figure_events env patient a t pg ++ table_events a)
      as Htrace.
    { subst r a.
      rewrite (create_max_lh_tree_solved env patient kw t pg Hsolve Hdef Hfail).
      reflexivity. }
    rewrite Htrace. split; [|split].
    + intros p Hmm. do 2 apply list_elem_of_further. apply elem_of_app. right.
      apply table_events_matrix, Hmm.
    + intros p Hmp. do 2 apply list_elem_of_further. apply elem_of_app. right.
      apply table_events_patterns, Hmp.
    + intros fp Hplots Hfp. eexists _, _, _.
      do 2 apply list_elem_of_further. apply elem_of_app. left.
      unfold figure_events. rewrite Hplots, Hfp. apply plot_tree_figure.
Qed.

Lemma outputs_on_demand_witness :
  let r := create_max_lh_tree
             (H := Examples.scripted Examples.a_tree (λ p, Examples.solved p None))
             Examples.env Examples.patient
             (Examples.outputs None (Some "out/matrix.txt"%string) None true) in
  WriteMutationMatrix "out/matrix.txt" ∈ trace r ∧
  (∀ p, WriteMutationPatterns p ∉ trace r) ∧
  (∀ ev, ev ∈ trace r → is_figure_output ev = false).
Proof.
  destruct (outputs_on_demand
              (H := Examples.scripted Examples.a_tree
                      (λ p, Examples.solved p None))
              Examples.env Examples.patient
              (Examples.outputs None (Some "out/matrix.txt"%string) None true)
              Examples.a_tree (Examples.solved Examples.patient None)
              eq_refl) as (_ & Hmp & Hfig & _ & Hwritten).
  destruct (Hwritten (VMaxLHPhylogeny (Examples.solved Examples.patient None))
              eq_refl) as (Hmm & _ & _).
  split; [|split].
  - apply Hmm. reflexivity.
  - intros p Hp. apply Hmp in Hp. discriminate Hp.
  - intros ev Hev. destruct (is_figure_output ev) eqn:Hout; [|reflexivity].
    destruct (Hfig ev Hev Hout) as [_ [fp Hfp]]. discriminate Hfp.
Defined.

(** C9 (as stated) fails: a requested mutation-matrix file is not written
    when the run raises before line 171.  With a figure path that has no
    directory, [pdflatex] is called with an empty working directory, the
    call raises [FileNotFoundError] after the figure was written, and the
    matrix is never written although [mm_filepath] is given. *)
Lemma requested_matrix_not_written :
  let r := create_max_lh_tree (H := Runs.solver) Examples.env Examples.patient
             Runs.figure_here_and_matrix in
  (solve (H := Runs.solver) Examples.patient
     (bind_args Runs.figure_here_and_matrix)).1 = Some Examples.a_tree ∧
  mm_filepath (bind_args Runs.figure_here_and_matrix)
    = Some "out/matrix.txt"%string ∧
  (∃ c d g, TikzCreateFigureFile Examples.a_tree "tree_full.tex" c d g ∈ trace r) ∧
  (WriteMutationMatrix "out/matrix.txt" ∉ trace r) ∧
  outcome r = inl (OSError FileNotFoundError).
Proof.
  intros r.
  assert (fractions_defined Examples.patient
            (Examples.solved Examples.patient None)) as Hdef.
  { split; [vm_compute; discriminate | intros c Hc; discriminate Hc]. }
  assert (r = (solve_event (bind_args Runs.figure_here_and_matrix)
                 :: Log INFO (MsgClassification
                                (classification
                                   (Examples.solved Examples.patient None)))
                 :: figure_events Examples.env Examples.patient
                      (bind_args Runs.figure_here_and_matrix) Examples.a_tree
                      (Examples.solved Examples.patient None),
               inl (OSError FileNotFoundError))) as ->.
  { apply (create_max_lh_tree_call_raises (H := Runs.solver));
      [reflexivity | exact Hdef | vm_compute; reflexivity]. }
  unfold trace, outcome. cbn [fst snd].
  split; [reflexivity|]. split; [reflexivity|].
  split; [|split; [|reflexivity]].
  - eexists _, _, _. do 2 apply list_elem_of_further.
    apply (plot_tree_figure Examples.env
             (bind_args Runs.figure_here_and_matrix) Examples.a_tree "tree").
  - intros [Hev|[Hev|Hev]%elem_of_cons]%elem_of_cons; try discriminate Hev.
    apply figure_events_inv in Hev.
    destruct Hev as (_ & _ & [Hev|(lv & msg & Hev)]); discriminate Hev.
Qed.

(** ** [infer_max_compatible_tree], case by case *)

Lemma for_each_debug_outcome patient pg (l : list (nat * string)) :
  outcome (for_each (debug_compatible patient pg) l) = inr tt.
Proof.
  induction l as [|sa l IH]; [reflexivity|].
  cbn [for_each]. unfold debug_compatible at 1. rewrite bind_emit. exact IH.
Qed.

Section InferMaxCompatibleTree.
Context `{SimplePhylogenyClass}.
Variables (env : Env) (filepath : string) (patient : Patient)
          (kw : simple_kwargs).

Lemma infer_max_compatible_tree_defined :
  let t := (simple_solve patient kw).1 in
  let pg := (simple_solve patient kw).2 in
  let no_present_muts :=
    size (Simple.compatible_mutations pg) + size (Simple.conflicting_mutations pg) in
  no_present_muts ≠ 0 →
  infer_max_compatible_tree env filepath patient kw =
    (FindMaxCompatibleTree (default None (skw_time_limit kw))
       :: TikzCreateFigureFile t filepath
            (SimpleCaption
               {| sc_excluded := size (Simple.conflicting_mutations pg);
                  sc_present := no_present_muts;
                  sc_fraction :=
                    Z.of_nat (size (Simple.conflicting_mutations pg))
                    # Pos.of_nat no_present_muts |})
            (default ∅ (skw_drivers kw)) None
       :: LatexAddBranchMutInfo filepath t
       :: debug_events env patient pg,
     inr (VSimplePhylogeny pg)).
Proof.
  unfold infer_max_compatible_tree, debug_events, simple_solve.
  destruct (find_max_compatible_tree _ _) as [t' pg']. cbn [fst snd].
  intros Hden.
  rewrite bind_emit. unfold exclusion_caption.
  rewrite (true_div_defined _ _ Hden). unfold lift. rewrite bind_value.
  rewrite !bind_emit. unfold trace, outcome. cbn [fst snd app].
  unfold when. destruct (debug_enabled env).
  - pose proof (for_each_debug_outcome patient pg'
                  (imap (λ i n, (i, n)) (sample_names patient))) as Hout.
    destruct (for_each _ _) as [evs r]. unfold outcome in Hout.
    cbn [fst snd] in *. subst r. rewrite bind_value.
    unfold trace, outcome, ret. cbn [fst snd]. rewrite app_nil_r. reflexivity.
  - rewrite bind_ret_l. reflexivity.
Qed.

Lemma infer_max_compatible_tree_raises :
  let pg := (simple_solve patient kw).2 in
  size (Simple.compatible_mutations pg) + size (Simple.conflicting_mutations pg) = 0 →
  infer_max_compatible_tree env filepath patient kw =
    ([FindMaxCompatibleTree (default None (skw_time_limit kw))],
     inl ZeroDivisionError).
Proof.
  unfold infer_max_compatible_tree, simple_solve.
  destruct (find_max_compatible_tree _ _) as [t' pg']. cbn [fst snd].
  intros Hden.
  rewrite bind_emit. unfold exclusion_caption. rewrite Hden.
  reflexivity.
Qed.

End InferMaxCompatibleTree.

(** ** The pattern model *)

Lemma subset_from_empty (i : nat) (P : pattern) :
  subset_from i P = ∅ ↔ existsb id P = false.
Proof.
  revert i. induction P as [|b P IH]; intros i; simpl; [tauto|].
  destruct b; simpl.
  - split; [|discriminate]. intros Hempty. exfalso.
    assert (i ∈ ({[i]} ∪ subset_from (S i) P : gset nat)) as Hin
      by (apply elem_of_union_l, elem_of_singleton; reflexivity).
    rewrite Hempty in Hin. apply not_elem_of_empty in Hin. exact Hin.
  - rewrite (left_id_L ∅ (∪)). apply IH.
Qed.

(** A pattern is present iff its sample subset is not empty. *)
Lemma is_present_subset (P : pattern) :
  is_present P = true ↔ sample_subset P ≠ ∅.
Proof.
  unfold is_present, sample_subset. rewrite subset_from_empty.
  destruct (existsb id P); split; congruence.
Qed.

(** C7: compatibility is symmetric: for all patterns P and Q,
    [compatible P Q = compatible Q P], where two patterns are compatible
    iff the intersection of their sample subsets is empty, S(P) or S(Q). *)
Theorem compatible_symmetric (P Q : pattern) :
  compatible P Q = compatible Q P.
Proof.
  unfold compatible. apply bool_decide_ext.
  rewrite (comm_L (∩) (sample_subset Q) (sample_subset P)).
  rewrite !elem_of_cons, !elem_of_nil. tauto.
Qed.

(** Compatible patterns are exactly the disjoint or nested ones. *)
Lemma compatible_disjoint_or_nested (P Q : pattern) :
  compatible P Q = true ↔
  sample_subset P ## sample_subset Q ∨
  sample_subset P ⊆ sample_subset Q ∨
  sample_subset Q ⊆ sample_subset P.
Proof.
  unfold compatible. rewrite bool_decide_eq_true.
  rewrite !elem_of_cons, elem_of_nil.
  rewrite disjoint_intersection_L.
  rewrite (subseteq_intersection_L (sample_subset P) (sample_subset Q)).
  rewrite (subseteq_intersection_L (sample_subset Q) (sample_subset P)).
  rewrite (comm_L (∩) (sample_subset Q) (sample_subset P)). tauto.
Qed.

(** The conflict scenario: {1,2} and {2,3} over three samples. *)
Example conflict_scenario :
  compatible [true; true; false] [false; true; true] = false.
Proof. vm_compute. reflexivity. Qed.

(** ** The simple solver *)

Lemma elem_of_dom_filter (rows : gmap nat pattern) (Q : nat * pattern → Prop)
    `{∀ kv, Decision (Q kv)} (mut : nat) :
  mut ∈ dom (filter Q rows) ↔ ∃ P, rows !! mut = Some P ∧ Q (mut, P).
Proof.
  rewrite elem_of_dom. unfold is_Some.
  setoid_rewrite map_lookup_filter_Some. reflexivity.
Qed.

(** The present variants are those whose pattern marks some sample. *)
Lemma elem_of_present (rows : gmap nat pattern) (mut : nat) :
  mut ∈ dom (present_rows rows) ↔
  ∃ P, rows !! mut = Some P ∧ sample_subset P ≠ ∅.
Proof.
  unfold present_rows. rewrite elem_of_dom_filter.
  setoid_rewrite <- is_present_subset. reflexivity.
Qed.

(** The chosen subset is one of the enumerated compatible subsets, or the
    empty selection. *)
Lemma foldl_heavier_choice rows (cands : list (list pattern)) (best : list pattern) :
  foldl (heavier rows) best cands = best ∨ foldl (heavier rows) best cands ∈ cands.
Proof.
  revert best. induction cands as [|c cands IH]; intros best; simpl; [left; reflexivity|].
  destruct (IH (heavier rows best c)) as [Heq|Hin].
  - rewrite Heq. unfold heavier. case_decide.
    + right. apply list_elem_of_here.
    + left. reflexivity.
  - right. apply list_elem_of_further, Hin.
Qed.

Lemma max_compatible_subset_compatible (rows : gmap nat pattern) :
  pairwise_compatible (max_compatible_subset rows) = true.
Proof.
  unfold max_compatible_subset.
  destruct (foldl_heavier_choice rows
              (filter (λ sel, pairwise_compatible sel = true)
                      (sublists (distinct_patterns rows))) [])
    as [->|Hin]; [reflexivity|].
  apply list_elem_of_filter in Hin. apply Hin.
Qed.

(** Selected and unselected patterns split the present variants. *)
Lemma selection_partition (rows : gmap nat pattern) (sel : list pattern) :
  let compat := dom (filter (λ kv : nat * pattern, kv.2 ∈ sel) rows) in
  let confl := dom (filter (λ kv : nat * pattern, kv.2 ∉ sel) rows) in
  compat ∪ confl = dom rows ∧ compat ∩ confl = ∅.
Proof.
  intros compat confl. subst compat confl. split.
  - apply set_eq. intros mut.
    rewrite elem_of_union, !elem_of_dom_filter, elem_of_dom. unfold is_Some.
    split.
    + intros [(P & HP & _)|(P & HP & _)]; eauto.
    + intros [P HP]. destruct (decide (P ∈ sel)); [left|right]; eauto.
  - apply set_eq. intros mut.
    rewrite elem_of_intersection, !elem_of_dom_filter, elem_of_empty.
    split; [|contradiction].
    intros [(P & HP & Hin) (P' & HP' & Hnotin)]. simpl in *.
    rewrite HP in HP'. injection HP' as <-. contradiction.
Qed.

Lemma spec_solver_partition (patient : Patient) (kw : simple_kwargs) :
  let pg := (simple_solve (H := spec_simple_phylogeny) patient kw).2 in
  Simple.compatible_mutations pg ∪ Simple.conflicting_mutations pg
    = dom (present_rows (mps patient)) ∧
  Simple.compatible_mutations pg ∩ Simple.conflicting_mutations pg = ∅.
Proof.
  unfold simple_solve. simpl.
  apply (selection_partition (present_rows (mps patient))).
Qed.

(** C3: in the simple path, after [find_max_compatible_tree], every
    mutation present in at least one sample lies in exactly one of
    [compatible_mutations] and [conflicting_mutations] (the two sets
    partition the present mutations), and the caption reports the
    exclusion of [len(conflicting_mutations)] out of
    [len(compatible_mutations) + len(conflicting_mutations)] mutations,
    with the quotient of the two as the fraction. *)
Theorem simple_path_partition env filepath patient kw :
  let present := dom (present_rows (mps patient)) in
  let r := infer_max_compatible_tree (H := spec_simple_phylogeny)
             env filepath patient kw in
  let pg := (simple_solve (H := spec_simple_phylogeny) patient kw).2 in
  let compat := Simple.compatible_mutations pg in
  let confl := Simple.conflicting_mutations pg in
  present ≠ ∅ →
  (∀ mut, mut ∈ present ↔
          (mut ∈ compat ∧ mut ∉ confl) ∨ (mut ∈ confl ∧ mut ∉ compat)) ∧
  compat ∪ confl = present ∧
  compat ∩ confl = ∅ ∧
  size compat + size confl = size present ∧
  ∃ t c,
    TikzCreateFigureFile t filepath (SimpleCaption c)
      (default ∅ (skw_drivers kw)) None ∈ trace r ∧
    sc_excluded c = size confl ∧
    sc_present c = size compat + size confl ∧
    sc_fraction c = (Z.of_nat (size confl) # Pos.of_nat (size compat + size confl)).
Proof.
  intros present r pg compat confl Hpresent.
  destruct (spec_solver_partition patient kw) as [Hunion Hdisj].
  fold pg in Hunion, Hdisj. fold compat confl in Hunion, Hdisj.
  fold present in Hunion.
  assert (size compat + size confl = size present) as Hsize.
  { rewrite <- Hunion. symmetry. apply size_union.
    apply disjoint_intersection_L, Hdisj. }
  split; [|split; [exact Hunion|split; [exact Hdisj|split; [exact Hsize|]]]].
  - intros mut. rewrite <- Hunion, elem_of_union.
    assert (mut ∈ compat → mut ∈ confl → False) as Hexcl.
    { intros Hc Hf. apply (not_elem_of_empty (C := gset nat) mut).
      rewrite <- Hdisj. apply elem_of_intersection. split; assumption. }
    split.
    + intros [Hc|Hf]; [left|right]; split; try assumption;
        intros Hother; apply Hexcl; assumption.
    + intros [[Hc _]|[Hf _]]; [left|right]; assumption.
  - assert (size compat + size confl ≠ 0) as Hden.
    { rewrite Hsize. intros Hzero. apply Hpresent.
      apply size_empty_iff in Hzero. apply leibniz_equiv, Hzero. }
    subst r.
    rewrite (infer_max_compatible_tree_defined (H := spec_simple_phylogeny)
               env filepath patient kw Hden).
    eexists _, _. split; [apply list_elem_of_further, list_elem_of_here|].
    repeat split; reflexivity.
Qed.

Lemma simple_path_partition_witness :
  let pg := (simple_solve (H := spec_simple_phylogeny)
               Examples.patient Examples.simple_call).2 in
  Simple.compatible_mutations pg ∪ Simple.conflicting_mutations pg
    = {[0; 1; 2; 3]} ∧
  size (Simple.compatible_mutations pg) + size (Simple.conflicting_mutations pg) = 4.
Proof.
  assert (dom (present_rows (mps Examples.patient)) ≠ ∅) as Hpresent.
  { apply (bool_decide_unpack _). vm_compute. exact I. }
  destruct (simple_path_partition Examples.env "out/tree" Examples.patient
              Examples.simple_call Hpresent) as (_ & Hunion & _ & Hsize & _).
  split.
  - rewrite Hunion. apply (bool_decide_unpack _). vm_compute. exact I.
  - rewrite Hsize. vm_compute. reflexivity.
Defined.

(** ** Empty inputs *)

(** C2 (as amended): neither entry point checks its input.  For every
    input with zero samples or an empty variant set, both
    [infer_max_compatible_tree] and [create_max_lh_tree] construct the
    phylogeny object and attempt the solve first: the solver call is the
    first action of the run and no input-error report precedes it. *)
Theorem solve_attempted_first `{SimplePhylogenyClass} `{MaxLHPhylogenyClass}
    env filepath patient skw kw :
  empty_input patient →
  head (trace (infer_max_compatible_tree env filepath patient skw))
    = Some (FindMaxCompatibleTree (default None (skw_time_limit skw))) ∧
  head (trace (create_max_lh_tree env patient kw))
    = Some (solve_event (bind_args kw)).
Proof.
  intros _. split.
  - unfold infer_max_compatible_tree. rewrite bind_emit. reflexivity.
  - unfold create_max_lh_tree. rewrite bind_emit. reflexivity.
Qed.

Lemma solve_attempted_first_witness :
  head (trace (infer_max_compatible_tree (H := spec_simple_phylogeny)
                 Examples.env "out/tree" Examples.no_samples Examples.simple_call))
    = Some (FindMaxCompatibleTree None) ∧
  head (trace (create_max_lh_tree
                 (H := Examples.scripted Examples.root_only Examples.unsolved)
                 Examples.env Examples.no_samples no_kwargs))
    = Some (InferMaxLHTree false None 0 None 0).
Proof.
  exact (solve_attempted_first (H := spec_simple_phylogeny)
           (H0 := Examples.scripted Examples.root_only Examples.unsolved)
           Examples.env "out/tree"%string Examples.no_samples
           Examples.simple_call no_kwargs (or_introl eq_refl)).
Defined.

(** C2 (as stated) fails: on an input without samples and without
    variants the simple path calls its solver and then raises
    [ZeroDivisionError] while formatting the caption; the
    maximum-likelihood path calls its solver as well and, once a tree is
    returned, raises the same exception. *)
Lemma empty_input_not_rejected :
  infer_max_compatible_tree (H := spec_simple_phylogeny)
    Examples.env "out/tree" Examples.no_samples Examples.simple_call
    = ([FindMaxCompatibleTree None], inl ZeroDivisionError) ∧
  create_max_lh_tree (H := Examples.scripted Examples.root_only Examples.unsolved)
    Examples.env Examples.no_samples no_kwargs
    = ([InferMaxLHTree false None 0 None 0;
        Log INFO (MsgClassification
                    {| ci_fps := 0; ci_fns := 0; ci_fn_unknowns := 0 |})],
       inl ZeroDivisionError).
Proof. split; vm_compute; reflexivity. Qed.

(** ** The median of an empty variant collection *)

(** The guard of lines 130-133: without variants the median is NaN. *)
Lemma median_no_muts_empty (pg : MaxLH.phylogeny) :
  variants (MaxLH.patient pg) = ∅ → median_no_muts pg = NaN.
Proof.
  intros Hempty. unfold median_no_muts. rewrite Hempty, map_to_list_empty.
  reflexivity.
Qed.



(** ** What the entry points return *)

(** C10 (as amended): both entry points return the phylogeny object,
    never the tree.  Whenever [infer_max_compatible_tree] returns, it
    returns the [SimplePhylogeny] instance; whenever [create_max_lh_tree]
    returns, it returns the [MaxLHPhylogeny] instance (with [tree_plot]
    set when the ete tree was drawn); and when no tree could be inferred
    [create_max_lh_tree] does return, with the instance as the solver
    left it.  Neither entry point catches an exception raised on the way,
    so a run that raises returns nothing. *)
Theorem entry_points_return_phylogeny `{SimplePhylogenyClass}
    `{MaxLHPhylogenyClass} env filepath patient skw kw :
  let simple := infer_max_compatible_tree env filepath patient skw in
  let mlh := create_max_lh_tree env patient kw in
  let spg := (simple_solve patient skw).2 in
  let mlh_tree := (solve patient (bind_args kw)).1 in
  let mlh_pg := (solve patient (bind_args kw)).2 in
  (∀ v, outcome simple = inr v → v = VSimplePhylogeny spg) ∧
  (∀ v, outcome mlh = inr v →
        v = VMaxLHPhylogeny
              match mlh_tree with
              | Some _ => reported_object env (bind_args kw) mlh_pg
              | None => mlh_pg
              end) ∧
  (mlh_tree = None → outcome mlh = inr (VMaxLHPhylogeny mlh_pg)) ∧
  (∀ e, is_Some mlh_tree → fractions_defined patient mlh_pg →
        figure_failure env (bind_args kw) = Some e →
        outcome mlh = inl (OSError e)).
Proof.
  intros simple mlh spg mlh_tree mlh_pg. split; [|split; [|split]].
  - subst simple spg. intros v.
    destruct (decide (size (Simple.compatible_mutations (simple_solve patient skw).2)
                      + size (Simple.conflicting_mutations
                                (simple_solve patient skw).2) = 0)) as [Hz|Hnz].
    + rewrite (infer_max_compatible_tree_raises env filepath patient skw Hz).
      intros Hret. discriminate Hret.
    + rewrite (infer_max_compatible_tree_defined env filepath patient skw Hnz).
      unfold outcome. cbn [snd]. congruence.
  - subst mlh mlh_tree mlh_pg. intros v.
    destruct (solve patient (bind_args kw)) as [[t|] pg] eqn:Hsolve; cbn [fst snd].
    + destruct (fractions_defined_dec patient pg) as [Hdef|Hnot].
      * rewrite (create_max_lh_tree_defined env patient kw t pg Hsolve Hdef).
        unfold outcome. cbn [snd].
        destruct (figure_failure env (bind_args kw)); [discriminate|].
        congruence.
      * destruct (create_max_lh_tree_raises env patient kw t pg Hsolve Hnot)
          as (logs & -> & _).
        intros Hret. discriminate Hret.
    + rewrite (create_max_lh_tree_no_tree env patient kw pg Hsolve).
      unfold outcome. cbn [snd]. congruence.
  - subst mlh mlh_tree mlh_pg.
    destruct (solve patient (bind_args kw)) as [[t|] pg] eqn:Hsolve; cbn [fst snd];
      [discriminate|].
    intros _. rewrite (create_max_lh_tree_no_tree env patient kw pg Hsolve).
    reflexivity.
  - subst mlh mlh_tree mlh_pg. intros e.
    destruct (solve patient (bind_args kw)) as [[t|] pg] eqn:Hsolve; cbn [fst snd].
    + intros _ Hdef Hfail.
      rewrite (create_max_lh_tree_call_raises env patient kw t pg e
                 Hsolve Hdef Hfail).
      reflexivity.
    + intros [t Ht]. discriminate Ht.
Qed.

Lemma entry_points_return_phylogeny_witness :
  outcome (create_max_lh_tree (H := Runs.solver) Examples.env Examples.patient
             Examples.nothing_allowed)
  = inr (VMaxLHPhylogeny (Examples.unsolved Examples.patient)).
Proof.
  apply (entry_points_return_phylogeny (H := spec_simple_phylogeny)
           (H0 := Runs.solver) Examples.env "out/tree"%string Examples.patient
           Examples.simple_call Examples.nothing_allowed).
  reflexivity.
Defined.

(** C10 (as stated) fails: a run does not always return the instance.
    With a figure path that has no directory the [pdflatex] call of line
    160 gets an empty working directory and raises [FileNotFoundError],
    which [create_max_lh_tree] lets through; with no present mutation the
    caption of [infer_max_compatible_tree] divides by zero. *)
Lemma entry_points_can_raise :
  outcome (create_max_lh_tree (H := Runs.solver) Examples.env Examples.patient
             Runs.figure_here_and_matrix)
    = inl (OSError FileNotFoundError) ∧
  outcome (infer_max_compatible_tree (H := spec_simple_phylogeny)
             Examples.env "out/tree" Examples.no_samples Examples.simple_call)
    = inl ZeroDivisionError.
Proof. split; vm_compute; reflexivity. Qed.

(** * Further properties of the two entry points *)

(** ** The simple path: errors and outputs *)

Lemma for_each_debug_trace patient pg (l : list (nat * string)) :
  trace (for_each (debug_compatible patient pg) l)
  = (λ sa, debug_message patient pg sa.1 sa.2) <$> l.
Proof.
  induction l as [|sa l IH]; [reflexivity|].
  cbn [for_each]. unfold debug_compatible at 1. rewrite bind_emit.
  unfold trace at 1. cbn [fst fmap list_fmap]. f_equal. exact IH.
Qed.

Lemma debug_events_messages env patient pg :
  debug_events env patient pg =
    if debug_enabled env
    then imap (debug_message patient pg) (sample_names patient)
    else [].
Proof.
  unfold debug_events. destruct (debug_enabled env); [|reflexivity].
  rewrite for_each_debug_trace, fmap_imap. reflexivity.
Qed.

(** The simple path raises exactly when no mutation is compatible or
    conflicting; the exception is [ZeroDivisionError], and the run has
    then called the solver and written nothing. *)
Theorem simple_path_raises_iff `{SimplePhylogenyClass} env filepath patient kw :
  let r := infer_max_compatible_tree env filepath patient kw in
  let pg := (simple_solve patient kw).2 in
  let no_present_muts :=
    size (Simple.compatible_mutations pg) + size (Simple.conflicting_mutations pg) in
  ((∃ e, outcome r = inl e) ↔ no_present_muts = 0) ∧
  (no_present_muts = 0 →
   r = ([FindMaxCompatibleTree (default None (skw_time_limit kw))],
        inl ZeroDivisionError)).
Proof.
  intros r pg no_present_muts. split.
  - destruct (decide (no_present_muts = 0)) as [Hz|Hnz].
    + split; [intros _; exact Hz|]. intros _. subst r.
      rewrite (infer_max_compatible_tree_raises env filepath patient kw Hz).
      eexists. reflexivity.
    + split; [|contradiction]. subst r.
      rewrite (infer_max_compatible_tree_defined env filepath patient kw Hnz).
      intros [e He]. discriminate He.
  - intros Hz. apply (infer_max_compatible_tree_raises env filepath patient kw Hz).
Qed.

Lemma simple_path_raises_iff_witness :
  infer_max_compatible_tree (H := spec_simple_phylogeny)
    Runs.env "out/tree" Examples.no_variants Examples.simple_call
  = ([FindMaxCompatibleTree None], inl ZeroDivisionError).
Proof.
  apply (simple_path_raises_iff (H := spec_simple_phylogeny)
           Runs.env "out/tree"%string Examples.no_variants Examples.simple_call).
  vm_compute. reflexivity.
Defined.

(** Whenever the simple path returns, it has called the solver once, then
    written the figure and then the branch information, both to
    [filepath] and for the tree the solver returned; everything after
    that is debug logging, one message per sample in the order of
    [sample_names] when the logger is at DEBUG level and none otherwise. *)
Theorem simple_path_outputs `{SimplePhylogenyClass} env filepath patient kw v :
  let r := infer_max_compatible_tree env filepath patient kw in
  let t := (simple_solve patient kw).1 in
  let pg := (simple_solve patient kw).2 in
  outcome r = inr v →
  ∃ c,
    take 3 (trace r) =
      [FindMaxCompatibleTree (default None (skw_time_limit kw));
       TikzCreateFigureFile t filepath (SimpleCaption c)
         (default ∅ (skw_drivers kw)) None;
       LatexAddBranchMutInfo filepath t] ∧
    drop 3 (trace r) =
      (if debug_enabled env
       then imap (debug_message patient pg) (sample_names patient)
       else []) ∧
    length (drop 3 (trace r))
      = (if debug_enabled env then length (sample_names patient) else 0).
Proof.
  intros r t pg Hret.
  destruct (decide (size (Simple.compatible_mutations pg)
                    + size (Simple.conflicting_mutations pg) = 0)) as [Hz|Hnz].
  - subst r.
    rewrite (infer_max_compatible_tree_raises env filepath patient kw Hz) in Hret.
    discriminate Hret.
  - subst r.
    rewrite (infer_max_compatible_tree_defined env filepath patient kw Hnz).
    eexists. unfold trace. cbn [fst take drop].
    split; [reflexivity|]. rewrite debug_events_messages.
    split; [reflexivity|].
    destruct (debug_enabled env); [apply length_imap | reflexivity].
Qed.

Lemma simple_path_outputs_witness :
  length (drop 3 (trace (infer_max_compatible_tree (H := spec_simple_phylogeny)
                           Runs.env "out/tree" Examples.patient
                           Examples.simple_call))) = 3.
Proof.
  destruct (simple_path_outputs (H := spec_simple_phylogeny)
              Runs.env "out/tree"%string Examples.patient Examples.simple_call
              (VSimplePhylogeny
                 (simple_solve (H := spec_simple_phylogeny)
                    Examples.patient Examples.simple_call).2))
    as (c & _ & _ & Hlen).
  - vm_compute. reflexivity.
  - exact Hlen.
Defined.

(** The mutations a debug message lists are those of the sample that are
    compatible, each once. *)
Lemma compatible_in_sample_spec patient pg sa_idx :
  NoDup (compatible_in_sample patient pg sa_idx) ∧
  (∀ mut, mut ∈ compatible_in_sample patient pg sa_idx ↔
          mut ∈ default ∅ (samples patient !! sa_idx) ∧
          mut ∈ Simple.compatible_mutations pg) ∧
  length (compatible_in_sample patient pg sa_idx)
    = size (default ∅ (samples patient !! sa_idx)
            ∩ Simple.compatible_mutations pg).
Proof.
  unfold compatible_in_sample.
  set (X := default ∅ (samples patient !! sa_idx)).
  set (Y := Simple.compatible_mutations pg).
  assert (NoDup (filter (λ mut, mut ∈ Y) (elements X))) as Hnodup
    by apply NoDup_filter, NoDup_elements.
  assert (∀ mut, mut ∈ filter (λ mut, mut ∈ Y) (elements X) ↔ mut ∈ X ∧ mut ∈ Y)
    as Hin.
  { intros mut. rewrite list_elem_of_filter, elem_of_elements. tauto. }
  split; [exact Hnodup|]. split; [exact Hin|].
  rewrite <- (size_list_to_set (C := gset nat) _ Hnodup). f_equal.
  apply set_eq. intros mut.
  rewrite elem_of_list_to_set, elem_of_intersection. apply Hin.
Qed.

(** Every debug message of the simple path names a sample of the patient
    and reports, for that sample, exactly its compatible mutations, each
    once, together with their number. *)
Theorem debug_messages_sound `{SimplePhylogenyClass} env filepath patient kw
    sa_name count muts :
  let r := infer_max_compatible_tree env filepath patient kw in
  let pg := (simple_solve patient kw).2 in
  Log DEBUG (MsgCompatiblePresent sa_name count muts) ∈ trace r →
  debug_enabled env = true ∧
  count = length muts ∧ NoDup muts ∧
  ∃ sa_idx,
    sample_names patient !! sa_idx = Some sa_name ∧
    count = size (default ∅ (samples patient !! sa_idx)
                  ∩ Simple.compatible_mutations pg) ∧
    ∀ mut, mut ∈ muts ↔
           mut ∈ default ∅ (samples patient !! sa_idx) ∧
           mut ∈ Simple.compatible_mutations pg.
Proof.
  intros r pg Hev. subst r.
  destruct (decide (size (Simple.compatible_mutations pg)
                    + size (Simple.conflicting_mutations pg) = 0)) as [Hz|Hnz].
  { rewrite (infer_max_compatible_tree_raises env filepath patient kw Hz) in Hev.
    apply list_elem_of_singleton in Hev. discriminate Hev. }
  rewrite (infer_max_compatible_tree_defined env filepath patient kw Hnz) in Hev.
  unfold trace in Hev. cbn [fst] in Hev.
  rewrite !elem_of_cons in Hev.
  destruct Hev as [Hev|[Hev|[Hev|Hev]]]; try discriminate Hev.
  rewrite debug_events_messages in Hev.
  destruct (debug_enabled env); [|apply elem_of_nil in Hev; contradiction].
  split; [reflexivity|].
  apply list_elem_of_lookup in Hev. destruct Hev as [i Hi].
  rewrite list_lookup_imap in Hi.
  destruct (sample_names patient !! i) as [name|] eqn:Hname; [|discriminate Hi].
  simpl in Hi. unfold debug_message in Hi. injection Hi as <- <- <-.
  destruct (compatible_in_sample_spec patient (simple_solve patient kw).2 i)
    as (Hnodup & Hin & Hlen).
  split; [reflexivity|]. split; [exact Hnodup|].
  exists i. split; [exact Hname|]. split; [exact Hlen | exact Hin].
Qed.

Lemma debug_messages_sound_witness :
  ∃ sa_idx,
    sample_names Examples.patient !! sa_idx = Some "S3"%string ∧
    ∀ mut, mut ∈ [3; 0] ↔
           mut ∈ default ∅ (samples Examples.patient !! sa_idx) ∧
           mut ∈ Simple.compatible_mutations
                   (simple_solve (H := spec_simple_phylogeny)
                      Examples.patient Examples.simple_call).2.
Proof.
  destruct (debug_messages_sound (H := spec_simple_phylogeny)
              Runs.env "out/tree"%string Examples.patient Examples.simple_call
              "S3"%string 2 [3; 0]) as (_ & _ & _ & i & Hname & _ & Hin).
  - vm_compute. do 5 apply list_elem_of_further. apply list_elem_of_here.
  - exists i. split; [exact Hname | exact Hin].
Defined.

(** ** Fractions *)

Lemma ratio_bounds (a b : nat) :
  a ≤ b → b ≠ 0 →
  (0 <= Z.of_nat a # Pos.of_nat b)%Q ∧ (Z.of_nat a # Pos.of_nat b <= 1)%Q.
Proof. intros Hab Hb. unfold Qle. simpl. split; lia. Qed.

(** Every figure of the simple path reports an exclusion of at most all
    the present mutations: the count excluded is not above the count
    present, which is not zero, and the fraction lies between 0 and 1. *)
Theorem exclusion_fraction_bounds `{SimplePhylogenyClass} env filepath patient kw
    t fp c d g :
  TikzCreateFigureFile t fp (SimpleCaption c) d g
    ∈ trace (infer_max_compatible_tree env filepath patient kw) →
  sc_excluded c ≤ sc_present c ∧ sc_present c ≠ 0 ∧
  (0 <= sc_fraction c)%Q ∧ (sc_fraction c <= 1)%Q.
Proof.
  intros Hev.
  set (pg := (simple_solve patient kw).2) in *.
  destruct (decide (size (Simple.compatible_mutations pg)
                    + size (Simple.conflicting_mutations pg) = 0)) as [Hz|Hnz].
  { rewrite (infer_max_compatible_tree_raises env filepath patient kw Hz) in Hev.
    apply list_elem_of_singleton in Hev. discriminate Hev. }
  rewrite (infer_max_compatible_tree_defined env filepath patient kw Hnz) in Hev.
  unfold trace in Hev. cbn [fst] in Hev.
  rewrite !elem_of_cons in Hev.
  destruct Hev as [Hev|[Hev|[Hev|Hev]]]; try discriminate Hev.
  - injection Hev as -> -> -> -> ->. cbn [sc_excluded sc_present sc_fraction].
    fold pg. split; [lia|]. split; [exact Hnz|].
    apply ratio_bounds; [lia | exact Hnz].
  - rewrite debug_events_messages in Hev.
    destruct (debug_enabled env); [|apply elem_of_nil in Hev; contradiction].
    apply list_elem_of_lookup in Hev. destruct Hev as [i Hi].
    rewrite list_lookup_imap in Hi.
    destruct (sample_names patient !! i); discriminate Hi.
Qed.

Lemma exclusion_fraction_bounds_witness :
  ∃ c : simple_caption,
    sc_excluded c ≤ sc_present c ∧ sc_present c = 4 ∧ (sc_fraction c <= 1)%Q.
Proof.
  eexists.
  destruct (exclusion_fraction_bounds (H := spec_simple_phylogeny)
              Runs.env "out/tree"%string Examples.patient Examples.simple_call
              (simple_solve (H := spec_simple_phylogeny)
                 Examples.patient Examples.simple_call).1
              "out/tree"%string
              {| sc_excluded := 0; sc_present := 4; sc_fraction := (0 # 4)%Q |}
              ∅ None) as (Hle & _ & _ & Hfrac).
  - vm_compute. apply list_elem_of_further, list_elem_of_here.
  - split; [exact Hle|]. split; [reflexivity | exact Hfrac].
Defined.

Lemma mlh_summary_returns patient pg cap :
  outcome (mlh_summary patient pg) = inr cap →
  fractions_defined patient pg ∧ cap = caption_of patient pg.
Proof.
  intros Hret. destruct (fractions_defined_dec patient pg) as [Hdef|Hnot].
  - split; [exact Hdef|].
    rewrite (mlh_summary_defined patient pg Hdef) in Hret.
    unfold outcome in Hret. cbn [snd] in Hret. congruence.
  - rewrite (mlh_summary_undefined patient pg Hnot) in Hret. discriminate Hret.
Qed.

(** Whenever the summary of lines 105-126 yields a caption, its
    denominator (samples × present mutations) is not zero, its fraction is
    not negative, and a compatibility note, if there is one, reports at
    most all the classified variants: its fraction lies between 0 and 1. *)
Theorem caption_fraction_bounds patient pg cap :
  outcome (mlh_summary patient pg) = inr cap →
  cap_out_of cap ≠ 0 ∧ (0 <= cap_fraction cap)%Q ∧
  ∀ note, cap_compatibility cap = Some note →
    cn_conflicting note
      ≤ size (MaxLH.max_lh_mutations pg) + cn_conflicting note ∧
    (0 <= cn_fraction note)%Q ∧ (cn_fraction note <= 1)%Q.
Proof.
  intros Hret. apply mlh_summary_returns in Hret.
  destruct Hret as [[Hout Hden] ->]. unfold caption_of.
  cbn [cap_out_of cap_fraction cap_compatibility].
  split; [exact Hout|]. split.
  - unfold Qle. simpl. lia.
  - intros note Hnote.
    destruct (MaxLH.conflicting_mutations pg) as [c|] eqn:Hc;
      [|discriminate Hnote].
    simpl in Hnote. injection Hnote as <-. cbn [cn_conflicting cn_fraction].
    split; [lia|]. apply ratio_bounds; [lia|]. apply Hden. reflexivity.
Qed.

Lemma caption_fraction_bounds_witness :
  ∃ cap,
    outcome (mlh_summary Examples.patient
               (Examples.solved Examples.patient (Some {[3]}))) = inr cap ∧
    cap_out_of cap ≠ 0 ∧ (0 <= cap_fraction cap)%Q.
Proof.
  eexists. split; [vm_compute; reflexivity|].
  destruct (caption_fraction_bounds Examples.patient
              (Examples.solved Examples.patient (Some {[3]}))
              _ eq_refl) as (Hout & Hfrac & _).
  split; [exact Hout | exact Hfrac].
Defined.

(** ** The maximum-likelihood path: errors *)

(** Every event of any run of [create_max_lh_tree]. *)
Lemma run_trace_inv `{MaxLHPhylogenyClass} env patient kw ev :
  ev ∈ trace (create_max_lh_tree env patient kw) →
  ev = solve_event (bind_args kw) ∨
  (∃ lv msg, ev = Log lv msg) ∨
  ∃ t pg, solve patient (bind_args kw) = (Some t, pg) ∧
          fractions_defined patient pg ∧
          (ev ∈ figure_events env patient (bind_args kw) t pg ∨
           ev ∈ table_events (bind_args kw)).
Proof.
  intros Hev.
  destruct (solve patient (bind_args kw)) as [[t|] pg] eqn:Hsolve.
  - destruct (fractions_defined_dec patient pg) as [Hdef|Hnot].
    + destruct (solved_trace_inv env patient kw t pg ev Hsolve Hdef Hev)
        as [->|[->|Hout]]; eauto 8.
    + destruct (create_max_lh_tree_raises env patient kw t pg Hsolve Hnot)
        as (logs & Hrun & Hlogs).
      rewrite Hrun in Hev. unfold trace in Hev. cbn [fst] in Hev.
      apply elem_of_cons in Hev. destruct Hev as [->|Hev]; [left; reflexivity|].
      right. left. apply Hlogs, Hev.
  - rewrite (create_max_lh_tree_no_tree env patient kw pg Hsolve) in Hev.
    unfold trace in Hev. cbn [fst] in Hev.
    rewrite !elem_of_cons, elem_of_nil in Hev.
    destruct Hev as [->|[->|[]]]; eauto.
Qed.

(** [create_max_lh_tree] raises exactly when a tree was inferred and
    either a denominator of the caption is zero or the [pdflatex] call of
    a requested figure raises.  In the first case the exception is
    [ZeroDivisionError] and the run has written no file; in the second it
    is the [OSError] of the call, the figure has been written and no
    table is. *)
Theorem max_lh_raises_iff `{MaxLHPhylogenyClass} env patient kw :
  let r := create_max_lh_tree env patient kw in
  let a := bind_args kw in
  let mlh_tree := (solve patient a).1 in
  let mlh_pg := (solve patient a).2 in
  (outcome r = inl ZeroDivisionError ↔
   is_Some mlh_tree ∧ ¬ fractions_defined patient mlh_pg) ∧
  (∀ e, outcome r = inl (OSError e) ↔
        is_Some mlh_tree ∧ fractions_defined patient mlh_pg ∧
        figure_failure env a = Some e) ∧
  (outcome r = inl ZeroDivisionError →
   ∀ ev, ev ∈ trace r → writes_file ev = false) ∧
  (∀ e, outcome r = inl (OSError e) →
        (∃ t fp c d g, TikzCreateFigureFile t fp c d g ∈ trace r) ∧
        ∀ p, (WriteMutationMatrix p ∉ trace r) ∧
             (WriteMutationPatterns p ∉ trace r)).
Proof.
  intros r a mlh_tree mlh_pg. subst r a mlh_tree mlh_pg.
  destruct (solve patient (bind_args kw)) as [[t|] pg] eqn:Hsolve; cbn [fst snd].
  - destruct (fractions_defined_dec patient pg) as [Hdef|Hnot].
    + destruct (figure_failure env (bind_args kw)) as [e0|] eqn:Hfail.
      * rewrite (create_max_lh_tree_call_raises env patient kw t pg e0
                   Hsolve Hdef Hfail).
        unfold outcome, trace. cbn [fst snd].
        split; [|split; [|split]].
        -- split; [intros Heq; discriminate Heq|]. intros [_ Hnot]. contradiction.
        -- intros e. split.
           ++ intros [= <-]. split; [eexists; reflexivity|].
              split; [exact Hdef | reflexivity].
           ++ intros (_ & _ & [= <-]). reflexivity.
        -- intros Heq. discriminate Heq.
        -- intros e _.
           assert (plots (bind_args kw) = true ∧
                   ∃ fp, tree_filepath (bind_args kw) = Some fp) as [Hplots [fp Hfp]].
           { unfold figure_failure in Hfail.
             destruct (plots (bind_args kw)); [|discriminate Hfail].
             destruct (tree_filepath (bind_args kw)) as [fp|];
               [|discriminate Hfail].
             split; [reflexivity | exists fp; reflexivity]. }
           split.
           ++ eexists _, _, _, _, _. do 2 apply list_elem_of_further.
              unfold figure_events. rewrite Hplots, Hfp. apply plot_tree_figure.
           ++ intros p. split;
                (intros [Hev|[Hev|Hev]%elem_of_cons]%elem_of_cons;
                 try discriminate Hev;
                 apply figure_events_inv in Hev;
                 destruct Hev as (_ & _ & [Hev|(lv & msg & Hev)]);
                 discriminate Hev).
      * rewrite (create_max_lh_tree_solved env patient kw t pg Hsolve Hdef Hfail).
        unfold outcome. cbn [snd].
        split; [|split; [|split]].
        -- split; [intros Heq; discriminate Heq|]. intros [_ Hnot]. contradiction.
        -- intros e. split; [intros Heq; discriminate Heq|].
           intros (_ & _ & Heq). discriminate Heq.
        -- intros Heq. discriminate Heq.
        -- intros e Heq. discriminate Heq.
    + destruct (create_max_lh_tree_raises env patient kw t pg Hsolve Hnot)
        as (logs & -> & Hlogs).
      unfold outcome, trace. cbn [fst snd].
      split; [|split; [|split]].
      * split; [|reflexivity]. intros _.
        split; [eexists; reflexivity | exact Hnot].
      * intros e. split; [intros Heq; discriminate Heq|].
        intros (_ & Hdef & _). contradiction.
      * intros _ ev [->|Hev]%elem_of_cons; [reflexivity|].
        destruct (Hlogs ev Hev) as (lv & msg & ->). reflexivity.
      * intros e Heq. discriminate Heq.
  - rewrite (create_max_lh_tree_no_tree env patient kw pg Hsolve).
    unfold outcome. cbn [snd].
    split; [|split; [|split]].
    + split; [intros Heq; discriminate Heq|]. intros [[t Ht] _]. discriminate Ht.
    + intros e. split; [intros Heq; discriminate Heq|].
      intros ([t Ht] & _). discriminate Ht.
    + intros Heq. discriminate Heq.
    + intros e Heq. discriminate Heq.
Qed.

Lemma max_lh_raises_iff_witness :
  let r := create_max_lh_tree
             (H := Examples.scripted Examples.root_only Runs.nothing_classified)
             Runs.env Examples.patient Runs.figure_and_matrix in
  outcome r = inl ZeroDivisionError ∧
  ∀ ev, ev ∈ trace r → writes_file ev = false.
Proof.
  split; [vm_compute; reflexivity|].
  apply (max_lh_raises_iff
           (H := Examples.scripted Examples.root_only Runs.nothing_classified)
           Runs.env Examples.patient Runs.figure_and_matrix).
  vm_compute. reflexivity.
Defined.

(** When the caption cannot be built, what has been logged depends on
    which division fails: the compatibility note is formatted before the
    classification summary is logged, the caption after it.  A recorded
    but empty conflict set over no accepted mutation stops the run right
    after the solver call; otherwise the classification summary is logged
    and the caption's own division raises. *)
Theorem summary_logged_unless_note_fails `{MaxLHPhylogenyClass} env patient kw t pg :
  solve patient (bind_args kw) = (Some t, pg) →
  ¬ fractions_defined patient pg →
  let r := create_max_lh_tree env patient kw in
  let note_fails :=
    ∃ c, MaxLH.conflicting_mutations pg = Some c ∧
         size (MaxLH.max_lh_mutations pg) + size c = 0 in
  (note_fails → trace r = [solve_event (bind_args kw)]) ∧
  (¬ note_fails →
   trace r = [solve_event (bind_args kw);
              Log INFO (MsgClassification (classification pg))]).
Proof.
  intros Hsolve Hnot r note_fails. subst r note_fails.
  unfold solve in Hsolve. unfold create_max_lh_tree. rewrite Hsolve.
  fold (solve_event (bind_args kw)). rewrite bind_emit.
  unfold report_tree, mlh_summary, compatibility_info, lift.
  destruct (MaxLH.conflicting_mutations pg) as [c|] eqn:Hc.
  - destruct (size (MaxLH.max_lh_mutations pg) + size c) eqn:Hden.
    + split; [intros _; reflexivity|].
      intros Hno. exfalso. apply Hno. exists c. split; [reflexivity | exact Hden].
    + split; [intros (c' & [= <-] & Hz); lia|]. intros _.
      destruct (length (sample_names patient) * size (present_mutations patient))
        eqn:Hout; [reflexivity|].
      exfalso. apply Hnot. split; [congruence|].
      intros c' Hc'. rewrite Hc in Hc'. injection Hc' as <-. lia.
  - split; [intros (c' & [=] & _)|]. intros _.
    destruct (length (sample_names patient) * size (present_mutations patient))
      eqn:Hout; [reflexivity|].
    exfalso. apply Hnot. split; [congruence|].
    intros c' Hc'. rewrite Hc in Hc'. discriminate Hc'.
Qed.

Lemma summary_logged_unless_note_fails_witness :
  trace (create_max_lh_tree
           (H := Examples.scripted Examples.root_only Runs.nothing_classified)
           Runs.env Examples.patient Runs.figure_and_matrix)
  = [InferMaxLHTree false None 0 None 0].
Proof.
  apply (summary_logged_unless_note_fails
           (H := Examples.scripted Examples.root_only Runs.nothing_classified)
           Runs.env Examples.patient Runs.figure_and_matrix
           Examples.root_only (Runs.nothing_classified Examples.patient) eq_refl).
  - intros [_ Hden]. apply (Hden ∅ eq_refl). vm_compute. reflexivity.
  - exists ∅. split; [reflexivity | vm_compute; reflexivity].
Defined.

(** ** The maximum-likelihood path: the returned object and the figure *)

(** [create_max_lh_tree] leaves the solver's results alone: the object it
    returns agrees with the object the solver left on the patient, the
    classification tables, the conflicting and accepted mutations and the
    founders.  Its [tree_plot] changes only when a tree was inferred, a
    figure was requested and ete3 is installed, and is then the value
    [create_tree] returned for [tree_filepath]. *)
Theorem results_untouched `{MaxLHPhylogenyClass} env patient kw pg' :
  let r := create_max_lh_tree env patient kw in
  let a := bind_args kw in
  let mlh_tree := (solve patient a).1 in
  let mlh_pg := (solve patient a).2 in
  outcome r = inr (VMaxLHPhylogeny pg') →
  same_results mlh_pg pg' ∧
  (MaxLH.tree_plot pg' = MaxLH.tree_plot mlh_pg ∨
   ete3_installed env = true ∧ is_Some mlh_tree ∧ plots a = true ∧
   ∃ fp, tree_filepath a = Some fp ∧
         MaxLH.tree_plot pg' = Some (ete_tree_plot env fp)).
Proof.
  intros r a mlh_tree mlh_pg. subst r a mlh_tree mlh_pg.
  assert (∀ pg, same_results pg pg) as Hrefl by (intros pg; repeat split).
  destruct (solve patient (bind_args kw)) as [[t|] pg] eqn:Hsolve; cbn [fst snd].
  - destruct (fractions_defined_dec patient pg) as [Hdef|Hnot].
    + rewrite (create_max_lh_tree_defined env patient kw t pg Hsolve Hdef).
      unfold outcome. cbn [snd].
      destruct (figure_failure env (bind_args kw));
        [intros Hret; discriminate Hret|].
      intros [= <-].
      unfold reported_object, after_plot.
      destruct (plots (bind_args kw)) eqn:Hplots;
        [|split; [apply Hrefl | left; reflexivity]].
      destruct (tree_filepath (bind_args kw)) as [fp|] eqn:Hfp;
        [|split; [apply Hrefl | left; reflexivity]].
      destruct (ete3_installed env) eqn:Hete;
        [|split; [apply Hrefl | left; reflexivity]].
      split; [repeat split|]. right.
      split; [reflexivity|]. split; [eexists; reflexivity|].
      split; [reflexivity|]. exists fp. split; reflexivity.
    + destruct (create_max_lh_tree_raises env patient kw t pg Hsolve Hnot)
        as (logs & -> & _).
      intros Hret. discriminate Hret.
  - rewrite (create_max_lh_tree_no_tree env patient kw pg Hsolve).
    unfold outcome. cbn [snd]. intros [= <-].
    split; [apply Hrefl | left; reflexivity].
Qed.

Lemma results_untouched_witness :
  ∃ pg',
    outcome (create_max_lh_tree (H := Runs.solver) Runs.env Examples.patient
               Runs.figure_and_matrix) = inr (VMaxLHPhylogeny pg') ∧
    same_results (Examples.solved Examples.patient None) pg' ∧
    MaxLH.tree_plot pg' = Some "out/tree.png"%string.
Proof.
  eexists. split; [vm_compute; reflexivity|].
  destruct (results_untouched (H := Runs.solver) Runs.env Examples.patient
              Runs.figure_and_matrix _ eq_refl) as [Hsame _].
  split; [exact Hsame | reflexivity].
Defined.

(** The events of [plot_tree], in order: those up to the [pdflatex]
    call, then the call and its log line when the call returned. *)
Lemma plot_tree_trace env a t fp cap med pg :
  trace (plot_tree env a t fp cap med pg) =
    (if ete3_installed env
     then [EteCreateTree t fp (drivers a);
           Log INFO (MsgEteTree (ete_tree_plot env fp))]
     else [Log WARNING MsgImportError]) ++
    [TikzCreateFigureFile t (fp ++ "_full.tex")%string (MaxLHCaption cap)
       (drivers a)
       (Some (germline_distance (div_count (size (MaxLH.mlh_founders pg)) med)));
     LatexAddBranchMutInfo fp t;
     LatexAddArtifactInfo fp;
     Log DEBUG (MsgTikzpath (pdflatex_cwd_of env fp)
                  (path_split (tikz_tree_of env fp)).2)] ++
    match pdflatex_call env fp with
    | inl _ => []
    | inr return_code =>
        [Call (pdflatex_cmd_of env fp) (pdflatex_cwd_of env fp);
         if (return_code =? 0)%Z
         then Log INFO (MsgPdfCreated
                          (replace ".tex" ".pdf" (tikz_tree_of env fp)))
         else Log ERROR MsgPdfNotCreated]
    end.
Proof.
  unfold plot_tree, pdflatex_call, pdflatex_cmd_of, pdflatex_cwd_of,
    tikz_tree_of.
  destruct (path_split (tikz_figure_file env (fp ++ "_full.tex")))
    as [tikz_path tikz_file].
  cbn [fst snd]. unfold subprocess_call.
  destruct (call_outcome env _ tikz_path) as [e|return_code];
    unfold bind, emit, ret, raise, trace;
    destruct (ete3_installed env); cbn [fst snd app];
    try destruct (return_code =? 0)%Z; reflexivity.
Qed.

Lemma germline_distance_at_least_10 (x : pyfloat) :
  at_least_10 (germline_distance x).
Proof.
  destruct x as [q| |]; simpl; [|exact I|apply Qle_refl].
  destruct (Qle_bool q 1) eqn:Hq; simpl; [apply Qle_refl|].
  assert (1 < q)%Q as Hlt.
  { apply Qnot_le_lt. intros Hle. apply Qle_bool_iff in Hle. congruence. }
  apply Qle_trans with (10 * 1)%Q; [apply Qle_refl|].
  apply Qmult_le_l; [reflexivity | apply Qlt_le_weak, Hlt].
Qed.

(** Every figure of the maximum-likelihood path gets a germline distance
    that is a number (or infinity) of at least 10, never NaN; with an
    empty variant collection, where the median is NaN, it is exactly 10. *)
Theorem germline_distance_of_figures `{MaxLHPhylogenyClass} env patient kw
    t fp c d g :
  let mlh_pg := (solve patient (bind_args kw)).2 in
  TikzCreateFigureFile t fp c d g ∈ trace (create_max_lh_tree env patient kw) →
  ∃ x, g = Some x ∧ at_least_10 x ∧
       (variants (MaxLH.patient mlh_pg) = ∅ → x = FVal 10).
Proof.
  intros mlh_pg Hev. subst mlh_pg.
  apply run_trace_inv in Hev.
  destruct Hev as [Hev|[(lv & msg & Hev)|(t0 & pg & Hsolve & _ & [Hev|Hev])]];
    try discriminate Hev.
  - rewrite Hsolve. cbn [snd]. unfold figure_events in Hev.
    destruct (plots (bind_args kw)), (tree_filepath (bind_args kw)) as [fp0|];
      try (apply elem_of_nil in Hev; contradiction).
    rewrite plot_tree_trace in Hev.
    rewrite !elem_of_app, !elem_of_cons, elem_of_nil in Hev.
    destruct Hev as [Hev|[[Hev|[Hev|[Hev|[Hev|[]]]]]|Hev]];
      try discriminate Hev.
    + destruct (ete3_installed env);
        rewrite ?elem_of_cons, elem_of_nil in Hev;
        repeat destruct Hev as [Hev|Hev]; try discriminate Hev; contradiction.
    + injection Hev as _ _ _ _ ->. eexists. split; [reflexivity|].
      split; [apply germline_distance_at_least_10|].
      intros Hempty. rewrite (median_no_muts_empty pg Hempty). reflexivity.
    + destruct (pdflatex_call env fp0) as [e|return_code];
        [apply elem_of_nil in Hev; contradiction|].
      rewrite !elem_of_cons, elem_of_nil in Hev.
      destruct Hev as [Hev|[Hev|[]]]; [discriminate Hev|].
      destruct (return_code =? 0)%Z; discriminate Hev.
  - apply table_events_inv in Hev.
    destruct Hev as [(p & Hp & _)|(p & Hp & _)]; discriminate Hp.
Qed.

Lemma germline_distance_of_figures_witness :
  ∃ x, at_least_10 x ∧
       TikzCreateFigureFile Examples.a_tree "out/tree_full.tex"
         (MaxLHCaption (caption_of Examples.patient
                          (Examples.solved Examples.patient None)))
         ∅ (Some x)
       ∈ trace (create_max_lh_tree (H := Runs.solver) Runs.env Examples.patient
                  Runs.figure_and_matrix).
Proof.
  assert (TikzCreateFigureFile Examples.a_tree "out/tree_full.tex"
            (MaxLHCaption (caption_of Examples.patient
                             (Examples.solved Examples.patient None)))
            ∅ (Some (FVal 10))
          ∈ trace (create_max_lh_tree (H := Runs.solver) Runs.env
                     Examples.patient Runs.figure_and_matrix)) as Hev.
  { vm_compute. do 4 apply list_elem_of_further. apply list_elem_of_here. }
  destruct (germline_distance_of_figures (H := Runs.solver) Runs.env
              Examples.patient Runs.figure_and_matrix _ _ _ _ _ Hev)
    as (x & [= <-] & Hx & _).
  exists (FVal 10). split; [exact Hx | exact Hev].
Defined.

(** A run that builds its caption and was asked for a figure, event by
    event. *)
Lemma figure_run `{MaxLHPhylogenyClass} env patient kw t pg fp :
  solve patient (bind_args kw) = (Some t, pg) →
  fractions_defined patient pg →
  plots (bind_args kw) = true →
  tree_filepath (bind_args kw) = Some fp →
  create_max_lh_tree env patient kw =
    (solve_event (bind_args kw)
       :: Log INFO (MsgClassification (classification pg))
       :: (trace (plot_tree env (bind_args kw) t fp (caption_of patient pg)
                    (median_no_muts pg) pg)
           ++ match pdflatex_call env fp with
              | inl _ => []
              | inr _ => table_events (bind_args kw)
              end),
     match pdflatex_call env fp with
     | inl e => inl (OSError e)
     | inr _ => inr (VMaxLHPhylogeny (after_plot env fp pg))
     end).
Proof.
  intros Hsolve Hdef Hplots Hfp.
  rewrite (create_max_lh_tree_defined env patient kw t pg Hsolve Hdef).
  unfold figure_events, tables_written, reported_object, figure_failure.
  rewrite Hplots, Hfp. destruct (pdflatex_call env fp); reflexivity.
Qed.

(** The ete tree is optional.  In a run that builds its caption and was
    asked for a figure, a missing ete3 package costs the ete tree only:
    the import error is logged as a warning, [create_tree] is not called
    and the TikZ figure is still written; the object's [tree_plot] stays
    as the solver left it.  With ete3 installed the ete tree is drawn
    first and its file is recorded in [tree_plot].  Whether the run then
    returns the object depends on the [pdflatex] call alone. *)
Theorem ete_tree_optional `{MaxLHPhylogenyClass} env patient kw t pg fp :
  solve patient (bind_args kw) = (Some t, pg) →
  fractions_defined patient pg →
  plots (bind_args kw) = true →
  tree_filepath (bind_args kw) = Some fp →
  let r := create_max_lh_tree env patient kw in
  (∃ c d g, TikzCreateFigureFile t (fp ++ "_full.tex")%string c d g ∈ trace r) ∧
  (ete3_installed env = false →
   Log WARNING MsgImportError ∈ trace r ∧
   (∀ t' p d, EteCreateTree t' p d ∉ trace r) ∧
   outcome r = match pdflatex_call env fp with
               | inl e => inl (OSError e)
               | inr _ => inr (VMaxLHPhylogeny pg)
               end) ∧
  (ete3_installed env = true →
   EteCreateTree t fp (drivers (bind_args kw)) ∈ trace r ∧
   (Log WARNING MsgImportError ∉ trace r) ∧
   outcome r = match pdflatex_call env fp with
               | inl e => inl (OSError e)
               | inr _ =>
                   inr (VMaxLHPhylogeny
                          (MaxLH.set_tree_plot (ete_tree_plot env fp) pg))
               end).
Proof.
  intros Hsolve Hdef Hplots Hfp r. subst r.
  rewrite (figure_run env patient kw t pg fp Hsolve Hdef Hplots Hfp).
  rewrite plot_tree_trace. unfold trace, outcome, after_plot. cbn [fst snd].
  assert (∀ ev, ev ∈ match pdflatex_call env fp with
                     | inl _ => []
                     | inr _ => table_events (bind_args kw)
                     end →
                ev ≠ Log WARNING MsgImportError ∧
                ∀ t' p d, ev ≠ EteCreateTree t' p d) as Htab.
  { intros ev Hev. destruct (pdflatex_call env fp);
      [apply elem_of_nil in Hev; contradiction|].
    apply table_events_inv in Hev.
    destruct Hev as [(p & -> & _)|(p & -> & _)]; split; intros; discriminate. }
  assert (∀ ev, ev ∈ match pdflatex_call env fp with
                     | inl _ => []
                     | inr return_code =>
                         [Call (pdflatex_cmd_of env fp) (pdflatex_cwd_of env fp);
                          if (return_code =? 0)%Z
                          then Log INFO (MsgPdfCreated
                                           (replace ".tex" ".pdf"
                                              (tikz_tree_of env fp)))
                          else Log ERROR MsgPdfNotCreated]
                     end →
                ev ≠ Log WARNING MsgImportError ∧
                ∀ t' p d, ev ≠ EteCreateTree t' p d) as Hcall.
  { intros ev Hev. destruct (pdflatex_call env fp) as [e|return_code];
      [apply elem_of_nil in Hev; contradiction|].
    rewrite !elem_of_cons, elem_of_nil in Hev.
    destruct Hev as [->|[->|[]]]; [split; intros; discriminate|].
    destruct (return_code =? 0)%Z; split; intros; discriminate. }
  split; [|split].
  - eexists _, _, _. do 2 apply list_elem_of_further.
    apply elem_of_app. left. apply elem_of_app. right.
    apply elem_of_app. left. apply list_elem_of_here.
  - intros ->. split; [|split; [|reflexivity]].
    + do 2 apply list_elem_of_further. apply list_elem_of_here.
    + intros t' p d Hev.
      rewrite !elem_of_cons, !elem_of_app, !elem_of_cons, elem_of_nil in Hev.
      destruct Hev as [Hev|[Hev|[[[Hev|[]]|[Hev|Hev]]|Hev]]];
        try discriminate Hev.
      * destruct Hev as [Hev|[Hev|[Hev|[Hev|[]]]]]; discriminate Hev.
      * destruct (Hcall _ Hev) as [_ Hno]. apply (Hno t' p d). reflexivity.
      * destruct (Htab _ Hev) as [_ Hno]. apply (Hno t' p d). reflexivity.
  - intros ->. split; [|split; [|reflexivity]].
    + do 2 apply list_elem_of_further. apply list_elem_of_here.
    + intros Hev.
      rewrite !elem_of_cons, !elem_of_app, !elem_of_cons, elem_of_nil in Hev.
      destruct Hev as [Hev|[Hev|[[[Hev|[Hev|[]]]|[Hev|Hev]]|Hev]]];
        try discriminate Hev.
      * destruct Hev as [Hev|[Hev|[Hev|[Hev|[]]]]]; discriminate Hev.
      * destruct (Hcall _ Hev) as [Hno _]. apply Hno. reflexivity.
      * destruct (Htab _ Hev) as [Hno _]. apply Hno. reflexivity.
Qed.

Lemma ete_tree_optional_witness :
  let r := create_max_lh_tree (H := Runs.solver) Examples.env Examples.patient
             Runs.figure_and_matrix in
  Log WARNING MsgImportError ∈ trace r ∧
  (∀ t' p d, EteCreateTree t' p d ∉ trace r) ∧
  outcome r = inr (VMaxLHPhylogeny (Examples.solved Examples.patient None)).
Proof.
  assert (fractions_defined Examples.patient
            (Examples.solved Examples.patient None)) as Hdef.
  { split; [vm_compute; discriminate | intros c Hc; discriminate Hc]. }
  destruct (ete_tree_optional (H := Runs.solver) Examples.env Examples.patient
              Runs.figure_and_matrix Examples.a_tree
              (Examples.solved Examples.patient None) "out/tree"%string
              eq_refl Hdef eq_refl eq_refl) as (_ & Hmissing & _).
  exact (Hmissing eq_refl).
Defined.



(** ** The median and the counts *)

Lemma median_number (l : list nat) :
  l ≠ [] → ∃ q, median l = FVal q ∧ (0 <= q)%Q.
Proof.
  intros Hne. unfold median.
  assert (length (merge_sort Nat.le l) ≠ 0) as Hlen.
  { rewrite (Permutation_length (merge_sort_Permutation Nat.le l)).
    destruct l; [contradiction | discriminate]. }
  destruct (decide (length (merge_sort Nat.le l) = 0)); [contradiction|].
  destruct (Nat.odd _); eexists; (split; [reflexivity|]);
    unfold Qle; simpl; lia.
Qed.

(** The median of lines 130-133 is NaN exactly when the patient has no
    variant; otherwise it is a non-negative number. *)
Theorem median_nan_iff_no_variants (pg : MaxLH.phylogeny) :
  (median_no_muts pg = NaN ↔ variants (MaxLH.patient pg) = ∅) ∧
  (variants (MaxLH.patient pg) ≠ ∅ →
   ∃ q, median_no_muts pg = FVal q ∧ (0 <= q)%Q).
Proof.
  assert (variants (MaxLH.patient pg) ≠ ∅ →
          ∃ q, median_no_muts pg = FVal q ∧ (0 <= q)%Q) as Hnumber.
  { intros Hne. unfold median_no_muts.
    assert ((map_to_list (variants (MaxLH.patient pg))).*2 ≠ []) as Hvalues.
    { intros Hnil. apply fmap_nil_inv in Hnil.
      apply map_to_list_empty_iff in Hnil. contradiction. }
    destruct (decide (0 < length (map_to_list (variants (MaxLH.patient pg))).*2))
      as [_|Hlen].
    - apply median_number. intros Hnil. apply fmap_nil_inv in Hnil.
      contradiction.
    - destruct ((map_to_list (variants (MaxLH.patient pg))).*2);
        [contradiction | simpl in Hlen; lia]. }
  split; [|exact Hnumber]. split.
  - intros Hnan.
    destruct (decide (variants (MaxLH.patient pg) = ∅)) as [He|Hne]; [exact He|].
    destruct (Hnumber Hne) as (q & Hq & _). congruence.
  - apply median_no_muts_empty.
Qed.

Lemma median_nan_iff_no_variants_witness :
  ∃ q, median_no_muts (Examples.solved Examples.patient None) = FVal q ∧
       (0 <= q)%Q.
Proof.
  apply (median_nan_iff_no_variants (Examples.solved Examples.patient None)).
  apply (bool_decide_unpack _). vm_compute. exact I.
Defined.

(** The count of flagged samples of lines 107-111 is zero exactly when
    every entry of the table is empty: entries that flag no sample do not
    count, whatever their number. *)
Theorem no_flagged_zero_iff (d : gmap nat (gset nat)) :
  no_flagged d = 0 ↔ ∀ mut s, d !! mut = Some s → s = ∅.
Proof.
  induction d as [|mut s d Hfresh IH] using map_ind.
  - rewrite no_flagged_empty. split; [|reflexivity].
    intros _ mut s Hs. rewrite lookup_empty in Hs. discriminate Hs.
  - rewrite (no_flagged_insert d mut s Hfresh). split.
    + intros Hzero mut' s' Hs'.
      destruct (decide (mut = mut')) as [->|Hne].
      * rewrite lookup_insert_eq in Hs'. injection Hs' as <-.
        apply leibniz_equiv, size_empty_iff. lia.
      * rewrite lookup_insert_ne in Hs' by exact Hne.
        apply (proj1 IH ltac:(lia) mut' s' Hs').
    + intros Hall.
      rewrite (Hall mut s) by apply lookup_insert_eq.
      rewrite size_empty. simpl. apply IH.
      intros mut' s' Hs'. apply (Hall mut' s').
      rewrite lookup_insert_ne; [exact Hs'|].
      intros ->. rewrite Hfresh in Hs'. discriminate Hs'.
Qed.

(** ** The [pdflatex] command line *)

Lemma is_sep_slash (c : ascii) : is_sep c = true ↔ c = "/"%char.
Proof. unfold is_sep. apply bool_decide_eq_true. Qed.

Lemma span_tail_spec (r t h : list ascii) :
  span_tail r = (t, h) →
  r = t ++ h ∧ ("/"%char ∉ t) ∧ (h = [] ∨ ∃ h', h = "/"%char :: h').
Proof.
  revert t h. induction r as [|c r IH]; intros t h; simpl.
  - intros [= <- <-]. split; [reflexivity|].
    split; [apply not_elem_of_nil | left; reflexivity].
  - destruct (is_sep c) eqn:Hc.
    + intros [= <- <-]. apply is_sep_slash in Hc. subst c.
      split; [reflexivity|]. split; [apply not_elem_of_nil|].
      right. eexists. reflexivity.
    + destruct (span_tail r) as [t' h'] eqn:Hspan. intros [= <- <-].
      destruct (IH t' h' eq_refl) as (-> & Hno & Hh).
      split; [reflexivity|]. split; [|exact Hh].
      intros [Heq|Hin]%elem_of_cons; [|contradiction].
      rewrite <- Heq in Hc. vm_compute in Hc. discriminate Hc.
Qed.

(** [pdflatex] is given a bare file name: the part of the figure's path
    after its last slash, which contains no slash; what precedes it is
    empty or ends with a slash.  For a path without any slash the file
    name is the whole path and the working directory is the empty
    string. *)
Theorem pdflatex_file_name (p : string) :
  let dir := (path_split p).1 in
  let file := (path_split p).2 in
  ("/"%char ∉ list_ascii_of_string file) ∧
  (∃ prefix,
     list_ascii_of_string p = prefix ++ list_ascii_of_string file ∧
     (prefix = [] ∨ last prefix = Some "/"%char)) ∧
  ("/"%char ∉ list_ascii_of_string p → dir = ""%string ∧ file = p).
Proof.
  intros dir file. subst dir file. unfold path_split.
  destruct (span_tail (reverse (list_ascii_of_string p))) as [t h] eqn:Hspan.
  destruct (span_tail_spec _ _ _ Hspan) as (Hrev & Hno & Hh).
  cbn [fst snd]. rewrite list_ascii_of_string_of_list_ascii.
  assert (list_ascii_of_string p = reverse h ++ reverse t) as Hp.
  { rewrite <- reverse_app, <- Hrev, reverse_involutive. reflexivity. }
  split; [|split].
  - intros Hin. apply Hno. apply elem_of_reverse. exact Hin.
  - exists (reverse h). split; [exact Hp|].
    destruct Hh as [->|[h' ->]]; [left; reflexivity|].
    right. rewrite reverse_cons. apply last_snoc.
  - intros Hnoslash.
    destruct Hh as [->|[h' ->]].
    + simpl. split; [reflexivity|].
      rewrite app_nil_r in Hrev. rewrite <- Hrev, reverse_involutive.
      apply string_of_list_ascii_of_string.
    + exfalso. apply Hnoslash. rewrite Hp, reverse_cons.
      apply elem_of_app. left. apply elem_of_app. right.
      apply list_elem_of_here.
Qed.

Lemma pdflatex_file_name_witness :
  (path_split "tree_full.tex").1 = ""%string ∧
  (path_split "tree_full.tex").2 = "tree_full.tex"%string.
Proof.
  apply (pdflatex_file_name "tree_full.tex").
  apply (bool_decide_unpack _). vm_compute. exact I.
Defined.
